(** * A shallow embedding of the syntax highlighter of crates/ui/src/highlighter

    [usize] offsets are [nat]: the code only compares them, takes [max] and
    [min] of them and adds a slice start to sub-parse offsets, and none of
    these wrap for offsets inside a text.  Style payloads (colours, weights,
    underline styles) only matter through their equality, so each is an
    opaque code. *)

From Stdlib Require Import List Arith Lia Bool String Sorted NArith.
Import ListNotations.

(** ** Data model *)

(** [Range<usize>]; [end] is a keyword, so its second field is [end_]. *)
Record Range := mkRange { start : nat; end_ : nat }.

Definition Hsla := nat.
Definition FontWeight := nat.
Definition FontStyle := nat.
Definition UnderlineStyle := nat.
Definition StrikethroughStyle := nat.
Definition F32 := nat.

(** gpui's [HighlightStyle]: every field optional; [Default] is all [None]. *)
Record HighlightStyle := mkStyle {
  color : option Hsla;
  font_weight : option FontWeight;
  font_style : option FontStyle;
  background_color : option Hsla;
  underline : option UnderlineStyle;
  strikethrough : option StrikethroughStyle;
  fade_out : option F32
}.

Definition style_default : HighlightStyle :=
  mkStyle None None None None None None None.

Definition opt_eqb (a b : option nat) : bool :=
  match a, b with
  | Some x, Some y => Nat.eqb x y
  | None, None => true
  | _, _ => false
  end.

(** The derived [PartialEq] of [HighlightStyle]. *)
Definition style_eqb (s t : HighlightStyle) : bool :=
  opt_eqb (color s) (color t) && opt_eqb (font_weight s) (font_weight t)
  && opt_eqb (font_style s) (font_style t)
  && opt_eqb (background_color s) (background_color t)
  && opt_eqb (underline s) (underline t)
  && opt_eqb (strikethrough s) (strikethrough t)
  && opt_eqb (fade_out s) (fade_out t).

(** [if let Some(v) = other.f { style.f = Some(v) }] *)
Definition override {A} (mine other : option A) : option A :=
  match other with Some v => Some v | None => mine end.

(** [merge_highlight_style style other]: [other] on top, field by field. *)
Definition merge_highlight_style (style other : HighlightStyle) : HighlightStyle :=
  mkStyle (override (color style) (color other))
          (override (font_weight style) (font_weight other))
          (override (font_style style) (font_style other))
          (override (background_color style) (background_color other))
          (override (underline style) (underline other))
          (override (strikethrough style) (strikethrough other))
          (override (fade_out style) (fade_out other)).

(** ** The interval normalizer [unique_styles] *)

(** [BTreeSet<usize>] as its in-order element list: strictly increasing. *)
Fixpoint btree_insert (x : nat) (s : list nat) : list nat :=
  match s with
  | [] => [x]
  | y :: s' =>
      if x <? y then x :: s
      else if x =? y then s
      else y :: btree_insert x s'
  end.

Definition btree_contains (s : list nat) (x : nat) : bool :=
  existsb (Nat.eqb x) s.

(** [intervals]: the total range's ends, then each span's start and end. *)
Definition interval_points (total_range : Range)
    (styles : list (Range * HighlightStyle)) : list nat :=
  fold_left (fun acc '(r, _) => btree_insert (end_ r) (btree_insert (start r) acc))
    styles (btree_insert (end_ total_range) (btree_insert (start total_range) [])).

(** [significant_intervals]: every span's end. *)
Definition significant_points (styles : list (Range * HighlightStyle)) : list nat :=
  fold_left (fun acc '(r, _) => btree_insert (end_ r) acc) styles [].

(** [intervals[i]..intervals[i + 1]] for [i] in [0..len - 1]. *)
Fixpoint windows (l : list nat) : list Range :=
  match l with
  | x :: ((y :: _) as l') => mkRange x y :: windows l'
  | _ => []
  end.

Definition covers (r iv : Range) : bool :=
  (start r <=? start iv) && (end_ iv <=? end_ r).

(** One iteration of the [top_style] loop. *)
Definition top_step (iv : Range) (top : option HighlightStyle)
    (item : Range * HighlightStyle) : option HighlightStyle :=
  let '(r, st) := item in
  if covers r iv then
    match top with
    | Some t => Some (merge_highlight_style t st)
    | None => Some st
    end
  else top.

(** The [top_style] loop over all spans, in input order. *)
Definition top_style (iv : Range) (styles : list (Range * HighlightStyle))
    : option HighlightStyle :=
  fold_left (top_step iv) styles None.

Definition unwrap_or_default (o : option HighlightStyle) : HighlightStyle :=
  match o with Some s => s | None => style_default end.

(** The first loop, building [result]. *)
Definition interval_styles (pts : list nat) (styles : list (Range * HighlightStyle))
    : list (Range * HighlightStyle) :=
  flat_map (fun iv =>
      if end_ iv <=? start iv then []
      else [(iv, unwrap_or_default (top_style iv styles))]) (windows pts).

(** One iteration of the second loop; [merged] is kept reversed, so its head
    is [merged.last_mut()]. *)
Definition merge_step (sig : list nat) (merged : list (Range * HighlightStyle))
    (item : Range * HighlightStyle) : list (Range * HighlightStyle) :=
  let '(r, st) := item in
  match merged with
  | (lr, ls) :: rest =>
      if (end_ lr =? start r) && style_eqb ls st && negb (btree_contains sig (start r))
      then (mkRange (start lr) (end_ r), ls) :: rest
      else (r, st) :: merged
  | [] => [(r, st)]
  end.

Definition merge_adjacent (sig : list nat) (result : list (Range * HighlightStyle))
    : list (Range * HighlightStyle) :=
  rev (fold_left (merge_step sig) result []).

Definition unique_styles (total_range : Range) (styles : list (Range * HighlightStyle))
    : list (Range * HighlightStyle) :=
  match styles with
  | [] => []
  | _ => merge_adjacent (significant_points styles)
           (interval_styles (interval_points total_range styles) styles)
  end.

(** ** [SyntaxHighlighter::styles] *)

(** [HighlightItem]: a byte range and a highlight name. *)
Record HighlightItem := mkItem { item_range : Range; item_name : string }.

(** [HighlightTheme::style]: a pure lookup from highlight name to style. *)
Definition HighlightTheme := string -> option HighlightStyle.

(** The clipping of one matched range to the requested range. *)
Definition clip_to (range node_range : Range) : Range :=
  let s := Nat.max (start node_range) (start range) in
  let e := Nat.min (end_ node_range) (end_ range) in
  if e <? s then mkRange s s else mkRange s e.

(** [styles(range, theme)], where [highlights] is [self.match_styles(range)]. *)
Definition styles (range : Range) (theme : HighlightTheme)
    (highlights : list HighlightItem) : list (Range * HighlightStyle) :=
  let sts := map (fun item =>
      (clip_to range (item_range item), unwrap_or_default (theme (item_name item))))
      highlights in
  match sts with
  | [] => [(mkRange (start range) (end_ range), style_default)]
  | _ => unique_styles range sts
  end.

Definition color_style (c : Hsla) : HighlightStyle :=
  mkStyle (Some c) None None None None None None.
Definition red := color_style 1.
Definition green := color_style 2.
Definition blue := color_style 3.
Definition clean := style_default.
Definition sp (a b : nat) (s : HighlightStyle) := (mkRange a b, s).

(** ** The engine state and its external collaborators *)

Record Point := mkPoint { row : nat; column : nat }.

(** [tree_sitter::InputEdit]. *)
Record InputEdit := mkEdit {
  start_byte : nat;
  old_end_byte : nat;
  new_end_byte : nat;
  start_position : Point;
  old_end_position : Point;
  new_end_position : Point
}.

(** A [tree_sitter::Query] pattern: where it starts in the query source, its
    [property_predicates] (key, positive) and its [property_settings]
    (key, value). *)
Record QueryPattern := mkPattern {
  pattern_start_byte : nat;
  property_predicates : list (string * bool);
  property_settings : list (string * option string)
}.

(** A compiled [Query]: [pattern_count] is the length of [patterns]. *)
Record Query := mkQuery { patterns : list QueryPattern; capture_names : list string }.

Record QueryCapture := mkCapture { cap_node : Range; cap_index : nat }.
Record QueryMatch := mkMatch { pattern_index : nat; captures : list QueryCapture }.

(** An entry of [LanguageRegistry]. *)
Record LanguageConfig {Language : Type} := mkConfig {
  config_name : string;
  config_language : Language;
  injections : string;
  locals : string;
  highlights : string;
  injection_languages : list string
}.
Arguments LanguageConfig : clear implicits.
Arguments mkConfig {Language}.

(** The fields of [SyntaxHighlighter]; the [parser] is observed through the
    number of parses it has run. *)
Record SyntaxHighlighter {Tree : Type} := mkHighlighter {
  language : string;
  query : option Query;
  injection_queries : list (string * Query);
  locals_pattern_index : nat;
  highlights_pattern_index : nat;
  non_local_variable_patterns : list bool;
  injection_content_capture_index : option nat;
  injection_language_capture_index : option nat;
  local_scope_capture_index : option nat;
  local_def_capture_index : option nat;
  local_def_value_capture_index : option nat;
  local_ref_capture_index : option nat;
  text : string;
  parser : nat;
  tree : option Tree
}.
Arguments SyntaxHighlighter : clear implicits.

(** A call either returns or panics (an [unwrap] on [None] / [Err]). *)
Inductive Outcome (A : Type) := Done (a : A) | Panic.
Arguments Done {A} a.
Arguments Panic {A}.

Inductive Result (A E : Type) := Ok (a : A) | Err (e : E).
Arguments Ok {A E} a.
Arguments Err {A E} e.

(** [tracing::warn!] and [tracing::error!] lines. *)
Inductive LogLine := Warn (msg : string) | Error (msg : string).

Inductive Bias := Left | Right.

Definition opt_nat_eqb (a b : option nat) : bool := opt_eqb a b.

Definition opt_string_eqb (a b : option string) : bool :=
  match a, b with
  | Some x, Some y => String.eqb x y
  | None, None => true
  | _, _ => false
  end.

Definition range_eqb (a b : Range) : bool :=
  (start a =? start b) && (end_ a =? end_ b).

Fixpoint last_opt {A} (l : list A) : option A :=
  match l with
  | [] => None
  | [x] => Some x
  | _ :: l' => last_opt l'
  end.

(** [HashMap<SharedString, Query>] as an association list. *)
Fixpoint map_get {V} (k : string) (m : list (string * V)) : option V :=
  match m with
  | [] => None
  | (k', v) :: m' => if String.eqb k k' then Some v else map_get k m'
  end.

Definition map_insert {V} (k : string) (v : V) (m : list (string * V)) : list (string * V) :=
  (k, v) :: filter (fun '(k', _) => negb (String.eqb k k')) m.

Section Highlighter.

Context {Tree Language SubTree : Type}.

(** [LanguageRegistry::singleton().language(name)]. *)
Variable registry : string -> option (LanguageConfig Language).
(** [parser.set_language(..).is_ok()]. *)
Variable set_language_ok : Language -> bool.
(** [Query::new(language, source)]. *)
Variable query_new : Language -> string -> option Query.
(** [Tree::edit]. *)
Variable tree_edit : InputEdit -> Tree -> Tree.
(** The engine's [Parser]: [parse(text, old_tree)]. *)
Variable parse : string -> option Tree -> option Tree.
(** [QueryCursor::matches] bounded by [set_byte_range]. *)
Variable query_matches : Query -> Tree -> Range -> list QueryMatch.
(** [RopeExt::clip_offset]. *)
Variable clip_offset : string -> nat -> Bias -> nat.
(** A fresh [Parser] for an injected language, and the matches of a query on
    its tree. *)
Variable parse_fresh : Language -> string -> option SubTree.
Variable sub_matches : Query -> SubTree -> string -> list QueryMatch.

(** *** [build_combined_injections_query] *)

(** The loop counting [locals_pattern_index] and [highlights_pattern_index]. *)
Definition pattern_indices (q : Query) (locals_query_offset highlights_query_offset : nat)
    : nat * nat :=
  fold_left (fun '(l, hl) p =>
      let pattern_offset := pattern_start_byte p in
      if pattern_offset <? highlights_query_offset then
        (if pattern_offset <? locals_query_offset then S l else l, S hl)
      else (l, hl)) (patterns q) (0, 0).

Definition non_local_patterns (q : Query) : list bool :=
  map (fun p => existsb (fun '(key, positive) => negb positive && String.eqb key "local"%string)
                  (property_predicates p)) (patterns q).

(** The special capture indices, in the order content, language, def,
    def-value, ref, scope. *)
Record CaptureIndices := mkIndices {
  ci_content : option nat; ci_language : option nat; ci_def : option nat;
  ci_def_value : option nat; ci_ref : option nat; ci_scope : option nat
}.

Definition capture_step (ci : CaptureIndices) (iname : nat * string) : CaptureIndices :=
  let '(i, name) := iname in
  let i := Some i in
  if String.eqb name "injection.content"%string then
    mkIndices i (ci_language ci) (ci_def ci) (ci_def_value ci) (ci_ref ci) (ci_scope ci)
  else if String.eqb name "injection.language"%string then
    mkIndices (ci_content ci) i (ci_def ci) (ci_def_value ci) (ci_ref ci) (ci_scope ci)
  else if String.eqb name "local.definition"%string then
    mkIndices (ci_content ci) (ci_language ci) i (ci_def_value ci) (ci_ref ci) (ci_scope ci)
  else if String.eqb name "local.definition-value"%string then
    mkIndices (ci_content ci) (ci_language ci) (ci_def ci) i (ci_ref ci) (ci_scope ci)
  else if String.eqb name "local.reference"%string then
    mkIndices (ci_content ci) (ci_language ci) (ci_def ci) (ci_def_value ci) i (ci_scope ci)
  else if String.eqb name "local.scope"%string then
    mkIndices (ci_content ci) (ci_language ci) (ci_def ci) (ci_def_value ci) (ci_ref ci) i
  else ci.

Definition capture_indices (q : Query) : CaptureIndices :=
  fold_left capture_step (combine (seq 0 (List.length (capture_names q))) (capture_names q))
    (mkIndices None None None None None None).

(** The loop building [injection_queries]; a failed query logs an error. *)
Definition build_injection_queries (config : LanguageConfig Language)
    : list (string * Query) * list LogLine :=
  fold_left (fun '(m, logs) inj_language =>
      match registry inj_language with
      | Some inj_config =>
          match query_new (config_language inj_config) (highlights inj_config) with
          | Some q => (map_insert (config_name inj_config) q m, logs)
          | None => (m, logs ++ [Error ("failed to build injection query for "
                                         ++ config_name inj_config)])
          end
      | None => (m, logs)
      end) (injection_languages config) ([], []).

Definition build_combined_injections_query (lang : string)
    : Result (SyntaxHighlighter Tree) string * list LogLine :=
  match registry lang with
  | None => (Err ("language " ++ lang ++ " is not registered in `LanguageRegistry`")%string, [])
  | Some config =>
      if negb (set_language_ok (config_language config)) then (Err "parse set_language"%string, [])
      else
        let locals_query_offset := String.length (injections config) in
        let highlights_query_offset :=
          String.length (injections config ++ locals config)%string in
        let query_source := (injections config ++ locals config ++ highlights config)%string in
        match query_new (config_language config) query_source with
        | None => (Err "new query"%string, [])
        | Some q =>
            let '(lpi, hpi) := pattern_indices q locals_query_offset highlights_query_offset in
            let ci := capture_indices q in
            let '(iq, logs) := build_injection_queries config in
            (Ok (mkHighlighter Tree (config_name config) (Some q) iq lpi hpi
                   (non_local_patterns q) (ci_content ci) (ci_language ci) (ci_scope ci)
                   (ci_def ci) (ci_def_value ci) (ci_ref ci) EmptyString 0 None), logs)
        end
  end.

(** [SyntaxHighlighter::new]: on failure, warn and build ["text"] with [unwrap]. *)
Definition new (lang : string) : Outcome (SyntaxHighlighter Tree * list LogLine) :=
  match build_combined_injections_query lang with
  | (Ok h, logs) => Done (h, logs)
  | (Err err, logs) =>
      let logs := logs ++ [Warn ("SyntaxHighlighter init failed, fallback to use `text`, "
                                 ++ err)] in
      match build_combined_injections_query "text"%string with
      | (Ok h, logs') => Done (h, logs ++ logs')
      | (Err _, _) => Panic
      end
  end.

(** *** [update] *)

(** The edit [update] uses when it is given none. *)
Definition default_edit (txt : string) : InputEdit :=
  mkEdit 0 0 (String.length txt) (mkPoint 0 0) (mkPoint 0 0) (mkPoint 0 0).

Definition with_state (self : SyntaxHighlighter Tree) (txt : string) (calls : nat)
    (t : option Tree) : SyntaxHighlighter Tree :=
  mkHighlighter Tree (language self) (query self) (injection_queries self)
    (locals_pattern_index self) (highlights_pattern_index self)
    (non_local_variable_patterns self) (injection_content_capture_index self)
    (injection_language_capture_index self) (local_scope_capture_index self)
    (local_def_capture_index self) (local_def_value_capture_index self)
    (local_ref_capture_index self) txt calls t.

(** [update(edit, text)]; the argument [txt] is the source's [text].  In
    [self.tree.take().unwrap_or(self.parser.parse("", None).unwrap())] the
    receiver runs first (the tree is taken), then the argument of
    [unwrap_or], which Rust evaluates whether or not a tree was taken. *)
Definition update (self : SyntaxHighlighter Tree) (edit : option InputEdit) (txt : string)
    : Outcome (SyntaxHighlighter Tree) :=
  if String.eqb (text self) txt then Done self
  else
    let edit := match edit with Some e => e | None => default_edit txt end in
    let taken := tree self in
    let self := with_state self (text self) (parser self) None in
    match parse EmptyString None with
    | None => Panic
    | Some empty_tree =>
        let self := with_state self (text self) (S (parser self)) (tree self) in
        let old_tree := match taken with Some t => t | None => empty_tree end in
        let old_tree := tree_edit edit old_tree in
        let self := with_state self (text self) (S (parser self)) (tree self) in
        match parse txt (Some old_tree) with
        | None => Done self
        | Some new_tree => Done (with_state self txt (parser self) (Some new_tree))
        end
    end.

(** *** Injections *)

Definition injection_for_match (self : SyntaxHighlighter Tree) (parent_name : option string)
    (q : Query) (query_match : QueryMatch) : option string * option Range * bool :=
  let content_node :=
    fold_left (fun acc (capture : QueryCapture) =>
        if opt_nat_eqb (Some (cap_index capture)) (injection_content_capture_index self)
        then Some (cap_node capture) else acc) (captures query_match) None in
  let settings :=
    match nth_error (patterns q) (pattern_index query_match) with
    | Some p => property_settings p
    | None => []
    end in
  let '(language_name, include_children) :=
    fold_left (fun '(language_name, include_children) '(key, value) =>
        if String.eqb key "injection.language"%string then
          (match language_name with None => value | Some _ => language_name end,
           include_children)
        else if String.eqb key "injection.self"%string then
          (match language_name with None => Some (language self) | Some _ => language_name end,
           include_children)
        else if String.eqb key "injection.parent"%string then
          (match language_name with None => parent_name | Some _ => language_name end,
           include_children)
        else if String.eqb key "injection.include-children"%string then
          (language_name, true)
        else (language_name, include_children)) settings (None, false) in
  (language_name, content_node, include_children).

(** The capture loop of [handle_injection] over one match: [continue] on a
    capture starting before [last_end], [break] on one ending past
    [end_offset]. *)
Fixpoint injection_captures (names : list string) (start_offset end_offset : nat)
    (caps : list QueryCapture) (st : list (Range * string) * nat)
    : list (Range * string) * nat :=
  match caps with
  | [] => st
  | cap :: caps' =>
      let '(cache, last_end) := st in
      let node_range := mkRange (start_offset + start (cap_node cap))
                                (start_offset + end_ (cap_node cap)) in
      if start node_range <? last_end then
        injection_captures names start_offset end_offset caps' st
      else if end_offset <? end_ node_range then st
      else
        match nth_error names (cap_index cap) with
        | Some highlight_name =>
            injection_captures names start_offset end_offset caps'
              (cache ++ [(node_range, highlight_name)], end_ node_range)
        | None => injection_captures names start_offset end_offset caps' st
        end
  end.

(** The [while let Some(m) = matches.next()] loop; [last_end] starts at
    [start_offset]. *)
Definition injection_spans (names : list string) (start_offset end_offset : nat)
    (ms : list QueryMatch) : list (Range * string) :=
  fst (fold_left (fun st m => injection_captures names start_offset end_offset (captures m) st)
         ms ([], start_offset)).

(** [self.text.slice(start_offset..end_offset)] on byte offsets. *)
Definition rope_slice (txt : string) (s e : nat) : string := substring s (e - s) txt.

Definition handle_injection (self : SyntaxHighlighter Tree) (injection_language : string)
    (node : Range) : list (Range * string) :=
  let start_offset := clip_offset (text self) (start node) Left in
  let end_offset := clip_offset (text self) (end_ node) Right in
  match map_get injection_language (injection_queries self) with
  | None => []
  | Some q =>
      let content := rope_slice (text self) start_offset end_offset in
      if String.length content =? 0 then []
      else
        match registry injection_language with
        | None => []
        | Some config =>
            if negb (set_language_ok (config_language config)) then []
            else
              match parse_fresh (config_language config) content with
              | None => []
              | Some sub_tree =>
                  injection_spans (capture_names q) start_offset end_offset
                    (sub_matches q sub_tree content)
              end
        end
  end.

(** *** [match_styles] *)

(** The body of the capture loop: merge with the last pushed item. *)
Definition push_capture (highlights : list HighlightItem) (node_range : Range)
    (highlight_name : string) : list HighlightItem :=
  let last_item := last_opt highlights in
  let last_range := match last_item with Some it => item_range it | None => mkRange 0 0 end in
  let last_highlight_name := option_map item_name last_item in
  if (end_ last_range <=? start node_range)
     && opt_string_eqb last_highlight_name (Some highlight_name)
  then highlights ++ [mkItem (mkRange (start last_range) (end_ node_range)) highlight_name]
  else if range_eqb last_range node_range then
    highlights ++ [mkItem node_range
                     (match last_highlight_name with Some n => n | None => highlight_name end)]
  else highlights ++ [mkItem node_range highlight_name].

Definition match_captures (q : Query) (highlights : list HighlightItem)
    (caps : list QueryCapture) : list HighlightItem :=
  fold_left (fun hl cap =>
      match nth_error (capture_names q) (cap_index cap) with
      | None => hl
      | Some highlight_name => push_capture hl (cap_node cap) highlight_name
      end) caps highlights.

Definition match_styles (self : SyntaxHighlighter Tree) (range : Range) : list HighlightItem :=
  match tree self with
  | None => []
  | Some t =>
      match query self with
      | None => []
      | Some q =>
          fold_left (fun highlights query_match =>
              match injection_for_match self None q query_match with
              | (Some language_name, Some content_node, _) =>
                  highlights ++ map (fun '(r, n) => mkItem r n)
                                  (handle_injection self language_name content_node)
              | _ => match_captures q highlights (captures query_match)
              end) (query_matches q t range) []
      end
  end.

(** [SyntaxHighlighter::styles]. *)
Definition highlighter_styles (self : SyntaxHighlighter Tree) (range : Range)
    (theme : HighlightTheme) : list (Range * HighlightStyle) :=
  styles range theme (match_styles self range).

End Highlighter.

(** [is_empty]: the stored text has length 0. *)
Definition is_empty {Tree} (self : SyntaxHighlighter Tree) : bool :=
  String.length (text self) =? 0.

(** The name one [property_settings] entry gives [language_name] in the loop
    of [injection_for_match], when [language_name] is still [None]. *)
Definition setting_language {Tree} (self : SyntaxHighlighter Tree)
    (parent_name : option string) (setting : string * option string) : option string :=
  let '(key, value) := setting in
  if String.eqb key "injection.language"%string then value
  else if String.eqb key "injection.self"%string then Some (language self)
  else if String.eqb key "injection.parent"%string then parent_name
  else None.

(** ** [HighlightSummary], the [sum_tree] summary of [HighlightItem]

    Its fields are [usize]s, as [N] below [2^64]; [count += other.count] is
    written with the wrap-around of a release build. *)
Definition usize_max : N := (2 ^ 64 - 1)%N.

Record HighlightSummary := mkSummary {
  count : N;
  summary_start : N;
  summary_end : N;
  min_start : N;
  max_end : N
}.

(** [sum_tree::Item::summary] of a [HighlightItem]. *)
Definition item_summary (item : HighlightItem) : HighlightSummary :=
  let r := item_range item in
  mkSummary 1 (N.of_nat (start r)) (N.of_nat (end_ r)) (N.of_nat (start r)) (N.of_nat (end_ r)).

(** [sum_tree::Summary::zero]. *)
Definition summary_zero : HighlightSummary := mkSummary 0 0 usize_max usize_max 0.

(** [sum_tree::Summary::add_summary]. *)
Definition add_summary (self other : HighlightSummary) : HighlightSummary :=
  mkSummary ((count self + count other) mod 2 ^ 64) (summary_start other) (summary_end other)
    (N.min (min_start self) (min_start other)) (N.max (max_end self) (max_end other)).

(** The summary [sum_tree] keeps for a sequence of items: their summaries
    added left to right onto [zero]. *)
Definition summarize (items : list HighlightItem) : HighlightSummary :=
  fold_left (fun s item => add_summary s (item_summary item)) items summary_zero.

(** ** Predicates of the specification *)

(** [x] is the start or end of some span of [S]. *)
Definition endpoint {A} (S : list (Range * A)) (x : nat) : Prop :=
  exists r a, In (r, a) S /\ (x = start r \/ x = end_ r).

(** [l] is a list of non-empty spans, each starting where the previous one
    ends, from [a] to [b]: sorted, pairwise disjoint, and covering exactly
    [[a, b)]. *)
Fixpoint chain {A} (a : nat) (l : list (Range * A)) (b : nat) : Prop :=
  match l with
  | [] => a = b
  | (r, _) :: l' => start r = a /\ a < end_ r /\ chain (end_ r) l' b
  end.

(** The boundaries of a chain from [a]: [a], then every span's end. *)
Definition chain_points {A} (a : nat) (O : list (Range * A)) : list nat :=
  a :: map (fun p => end_ (fst p)) O.

(** [l] is emitted left to right from [lo]: each span starts at or after the
    end of the previous one (the first at or after [lo]), and [hi] is the end
    of the last one ([lo] when [l] is empty). *)
Fixpoint spans_upto (lo : nat) (l : list (Range * string)) (hi : nat) : Prop :=
  match l with
  | [] => lo = hi
  | (r, _) :: l' => lo <= start r /\ spans_upto (end_ r) l' hi
  end.

(** ** Concrete inputs *)

(** An engine with the given text, tree and injection queries, and no query
    of its own. *)
Definition sample_highlighter {Tree} (txt : string) (t : option Tree)
    (iq : list (string * Query)) : SyntaxHighlighter Tree :=
  mkHighlighter Tree "html"%string None iq 0 0 [] None None None None None None txt 0 t.

(** A parser that parses the empty text and fails on any other. *)
Definition parse_fails_on_text (s : string) (_ : option unit) : option unit :=
  if String.eqb s ""%string then Some tt else None.

(** A tree that records the edits applied to it, and a parser that returns
    the edited tree it is given. *)
Definition record_edit : InputEdit -> list InputEdit -> list InputEdit := @cons InputEdit.
Definition parse_keep (_ : string) (old : option (list InputEdit))
    : option (list InputEdit) :=
  Some (match old with Some t => t | None => [] end).

(** A registry with a ["css"] injection language. *)
Definition css_query : Query := mkQuery [] ["property"%string].
Definition css_registry (n : string) : option (LanguageConfig unit) :=
  if String.eqb n "css"%string then Some (mkConfig "css"%string tt ""%string ""%string ""%string []) else None.
Definition clip_exact (_ : string) (n : nat) (_ : Bias) : nat := n.
Definition parse_unit (_ : unit) (_ : string) : option unit := Some tt.
Definition css_matches (_ : Query) (_ : unit) (_ : string) : list QueryMatch :=
  [mkMatch 0 [mkCapture (mkRange 0 1) 0; mkCapture (mkRange 0 2) 0];
   mkMatch 0 [mkCapture (mkRange 1 2) 0]].

(** Modelled from the spec: the registry's plain-text pseudo-language
    ([LanguageRegistry] is not among the sources); it is registered under
    ["text"] with a grammar and empty injection, locals and highlights
    queries, and no injectable languages. *)
Definition text_language_config {Language} (l : Language) : LanguageConfig Language :=
  mkConfig "text"%string l ""%string ""%string ""%string [].

Definition text_registry (n : string) : option (LanguageConfig unit) :=
  if String.eqb n "text"%string then Some (text_language_config tt) else None.

(** An engine with a one-capture query [keyword] on the text ["fn"], and a
    cursor returning one match capturing [0..2]. *)
Definition keyword_highlighter : SyntaxHighlighter unit :=
  mkHighlighter unit "rust"%string (Some (mkQuery [] ["keyword"%string])) [] 0 0 []
    None None None None None None "fn"%string 0 (Some tt).
Definition keyword_matches (_ : Query) (_ : unit) (_ : Range) : list QueryMatch :=
  [mkMatch 0 [mkCapture (mkRange 0 2) 0]].

(** A registry with ["rust"] (sources ["ab"], ["c"], ["de"], injecting
    ["css"], which is registered, and ["js"], which is not), and a compiler
    giving the concatenated source three patterns, at bytes 0, 2 and 3, and
    failing on the ["css"] highlights ["bad"]. *)
Definition rust_registry (n : string) : option (LanguageConfig unit) :=
  if String.eqb n "rust"%string
  then Some (mkConfig "rust"%string tt "ab"%string "c"%string "de"%string
               ["css"%string; "js"%string])
  else if String.eqb n "css"%string
  then Some (mkConfig "css"%string tt ""%string ""%string "bad"%string [])
  else None.
Definition rust_query_new (_ : unit) (src : string) : option Query :=
  if String.eqb src "bad"%string then None
  else Some (mkQuery [mkPattern 0 [] []; mkPattern 2 [] []; mkPattern 3 [] []]
               ["keyword"%string]).

(** * Proofs *)

(** ** The point set of [unique_styles] *)

Lemma btree_insert_in : forall x s y, In y (btree_insert x s) <-> y = x \/ In y s.
Proof.
  intros x s y; induction s as [|z s IH]; simpl.
  - intuition congruence.
  - destruct (x <? z) eqn:Hlt; simpl; [intuition congruence|].
    destruct (x =? z) eqn:Heq; simpl.
    + apply Nat.eqb_eq in Heq; subst; intuition congruence.
    + rewrite IH; intuition congruence.
Qed.

Lemma btree_insert_sorted : forall x s,
  StronglySorted lt s -> StronglySorted lt (btree_insert x s).
Proof.
  intros x s; induction s as [|z s IH]; intros Hs; simpl.
  - repeat constructor.
  - inversion Hs as [|? ? Hs' Hz]; subst.
    destruct (x <? z) eqn:Hlt.
    + apply Nat.ltb_lt in Hlt. constructor; [exact Hs|].
      constructor; [exact Hlt|].
      eapply Forall_impl; [|exact Hz]. intros; lia.
    + destruct (x =? z) eqn:Heq; [exact Hs|].
      apply Nat.ltb_ge in Hlt; apply Nat.eqb_neq in Heq.
      constructor; [apply IH, Hs'|].
      apply Forall_forall; intros y Hy; apply btree_insert_in in Hy as [->|Hy].
      * lia.
      * rewrite Forall_forall in Hz; apply Hz, Hy.
Qed.

(** Two strictly increasing lists with the same elements are equal: a
    [BTreeSet] is determined by its elements. *)
Lemma sorted_ext : forall l1 l2, StronglySorted lt l1 -> StronglySorted lt l2 ->
  (forall x, In x l1 <-> In x l2) -> l1 = l2.
Proof.
  induction l1 as [|a l1 IH]; intros [|b l2] H1 H2 Hin.
  - reflexivity.
  - exfalso; apply (proj2 (Hin b)); left; reflexivity.
  - exfalso; apply (proj1 (Hin a)); left; reflexivity.
  - inversion H1 as [|? ? H1' Ha]; inversion H2 as [|? ? H2' Hb]; subst.
    rewrite Forall_forall in Ha, Hb.
    assert (a = b) as <-.
    { destruct (proj1 (Hin a) (or_introl eq_refl)) as [|Ha2]; [congruence|].
      destruct (proj2 (Hin b) (or_introl eq_refl)) as [|Hb1]; [congruence|].
      specialize (Ha _ Hb1); specialize (Hb _ Ha2); lia. }
    f_equal; apply IH; [exact H1'|exact H2'|].
    intros x; split; intros Hx.
    + destruct (proj1 (Hin x) (or_intror Hx)) as [<-|]; [|assumption].
      specialize (Ha _ Hx); lia.
    + destruct (proj2 (Hin x) (or_intror Hx)) as [<-|]; [|assumption].
      specialize (Hb _ Hx); lia.
Qed.

Lemma btree_insert_present : forall x s, StronglySorted lt s -> In x s ->
  btree_insert x s = s.
Proof.
  intros x s Hs Hx; apply sorted_ext.
  - apply btree_insert_sorted, Hs.
  - exact Hs.
  - intros y; rewrite btree_insert_in; split; [intros [->|]|]; auto.
Qed.

Lemma interval_points_fold_in : forall (S : list (Range * HighlightStyle)) acc x,
  In x (fold_left (fun acc '(r, _) => btree_insert (end_ r) (btree_insert (start r) acc))
          S acc) <-> In x acc \/ endpoint S x.
Proof.
  unfold endpoint.
  induction S as [|[r a] S IH]; intros acc x; simpl.
  - split; [tauto|]. intros [H|(? & ? & [] & _)]; exact H.
  - rewrite IH, !btree_insert_in. split.
    + intros [[->|[->|H]]|(r' & a' & Hin & Hx)].
      * right; exists r, a; split; [left; reflexivity|right; reflexivity].
      * right; exists r, a; split; [left; reflexivity|left; reflexivity].
      * left; exact H.
      * right; exists r', a'; split; [right; exact Hin|exact Hx].
    + intros [H|(r' & a' & [Heq|Hin] & Hx)].
      * left; right; right; exact H.
      * injection Heq as -> ->; destruct Hx; auto.
      * right; exists r', a'; split; [exact Hin|exact Hx].
Qed.

Lemma interval_points_fold_sorted : forall (S : list (Range * HighlightStyle)) acc,
  StronglySorted lt acc ->
  StronglySorted lt (fold_left (fun acc '(r, _) =>
                       btree_insert (end_ r) (btree_insert (start r) acc)) S acc).
Proof.
  induction S as [|[r a] S IH]; intros acc H; simpl; [exact H|].
  apply IH, btree_insert_sorted, btree_insert_sorted, H.
Qed.

Lemma interval_points_in : forall R S x,
  In x (interval_points R S) <-> x = start R \/ x = end_ R \/ endpoint S x.
Proof.
  intros R S x; unfold interval_points.
  rewrite interval_points_fold_in, !btree_insert_in; simpl; tauto.
Qed.

Lemma interval_points_sorted : forall R S, StronglySorted lt (interval_points R S).
Proof.
  intros R S; apply interval_points_fold_sorted, btree_insert_sorted,
    btree_insert_sorted; constructor.
Qed.

Lemma significant_fold_in : forall (S : list (Range * HighlightStyle)) acc x,
  In x (fold_left (fun acc '(r, _) => btree_insert (end_ r) acc) S acc) <->
  In x acc \/ exists r a, In (r, a) S /\ x = end_ r.
Proof.
  induction S as [|[r a] S IH]; intros acc x; simpl.
  - split; [tauto|]. intros [H|(? & ? & [] & _)]; exact H.
  - rewrite IH, btree_insert_in. split.
    + intros [[->|H]|(r' & a' & Hin & Hx)].
      * right; exists r, a; split; [left; reflexivity|reflexivity].
      * left; exact H.
      * right; exists r', a'; split; [right; exact Hin|exact Hx].
    + intros [H|(r' & a' & [Heq|Hin] & Hx)].
      * left; right; exact H.
      * injection Heq as -> ->; auto.
      * right; exists r', a'; split; [exact Hin|exact Hx].
Qed.

Lemma significant_contains : forall S x,
  btree_contains (significant_points S) x = true <-> exists r a, In (r, a) S /\ x = end_ r.
Proof.
  intros S x; unfold btree_contains, significant_points.
  rewrite existsb_exists; split.
  - intros (y & Hy & Heq); apply Nat.eqb_eq in Heq; subst.
    apply significant_fold_in in Hy as [[]|H]; exact H.
  - intros H; exists x; split; [apply significant_fold_in; right; exact H|].
    apply Nat.eqb_refl.
Qed.

(** ** The output of [unique_styles] is a chain *)

Lemma chain_app : forall {A} (l1 l2 : list (Range * A)) a b,
  chain a (l1 ++ l2) b <-> exists m, chain a l1 m /\ chain m l2 b.
Proof.
  intros A; induction l1 as [|[r x] l1 IH]; intros l2 a b; simpl.
  - split; [intros H; exists a; auto|intros (m & -> & H); exact H].
  - rewrite IH. split.
    + intros (Hs & Hlt & m & H1 & H2); exists m; auto.
    + intros (m & (Hs & Hlt & H1) & H2); split; [|split]; auto; exists m; auto.
Qed.

Lemma chain_le : forall {A} (l : list (Range * A)) a b, chain a l b -> a <= b.
Proof.
  intros A; induction l as [|[r x] l IH]; intros a b; simpl.
  - intros ->; reflexivity.
  - intros (<- & Hlt & H); apply IH in H; lia.
Qed.

Lemma last_cons_default : forall {A} (l : list A) x d d', last (x :: l) d = last (x :: l) d'.
Proof. intros A; induction l as [|y l IH]; intros x d d'; [reflexivity|apply IH]. Qed.

Lemma windows_cons2 : forall x y P, windows (x :: y :: P) = mkRange x y :: windows (y :: P).
Proof. reflexivity. Qed.

Lemma windows_positive : forall P, StronglySorted lt P ->
  Forall (fun iv => start iv < end_ iv) (windows P).
Proof.
  induction P as [|x P IH]; intros H; [constructor|].
  destruct P as [|y P]; [constructor|].
  rewrite windows_cons2; inversion H as [|? ? H' Hx]; subst.
  constructor; [inversion Hx; simpl; assumption|apply IH, H'].
Qed.

Lemma interval_styles_map : forall P S, StronglySorted lt P ->
  interval_styles P S =
  map (fun iv => (iv, unwrap_or_default (top_style iv S))) (windows P).
Proof.
  intros P S H; unfold interval_styles.
  induction (windows_positive P H) as [|iv ivs Hiv _ IH]; simpl; [reflexivity|].
  destruct (end_ iv <=? start iv) eqn:E; [apply Nat.leb_le in E; lia|].
  simpl; f_equal; exact IH.
Qed.

Lemma windows_chain : forall {A} (f : Range -> A) P p, StronglySorted lt (p :: P) ->
  chain p (map (fun iv => (iv, f iv)) (windows (p :: P))) (last (p :: P) p).
Proof.
  intros A f; induction P as [|q P IH]; intros p H; [reflexivity|].
  rewrite windows_cons2, map_cons.
  inversion H as [|? ? H' Hp]; subst; inversion Hp; subst.
  refine (conj eq_refl (conj _ _)); [assumption|].
  apply (IH q) in H'.
  replace (last (p :: q :: P) p) with (last (q :: P) q); [exact H'|].
  change (last (q :: P) q = last (q :: P) p); apply last_cons_default.
Qed.

Lemma merge_fold_chain : forall sig l acc a m b,
  chain m l b -> chain a (rev acc) m ->
  chain a (rev (fold_left (merge_step sig) l acc)) b.
Proof.
  intros sig; induction l as [|[r st] l IH]; intros acc a m b Hl Hacc; simpl in *.
  - subst; exact Hacc.
  - destruct Hl as (Hs & Hlt & Hl).
    destruct acc as [|[lr ls] rest]; simpl in *.
    + apply (IH _ a (end_ r)); [exact Hl|]. simpl. subst; auto.
    + destruct ((end_ lr =? start r) && style_eqb ls st
                && negb (btree_contains sig (start r))).
      * apply (IH _ a (end_ r)); [exact Hl|]; simpl.
        apply chain_app in Hacc as (m' & H1 & H2); simpl in H2.
        destruct H2 as (Hs' & Hlt' & He).
        apply chain_app; exists m'; split; [exact H1|]; simpl; split; [auto|split; [lia|auto]].
      * apply (IH _ a (end_ r)); [exact Hl|]; simpl.
        apply chain_app; exists m; split; [exact Hacc|]; simpl; auto.
Qed.

Lemma unique_styles_chain : forall R S p P,
  S <> [] -> interval_points R S = p :: P ->
  chain p (unique_styles R S) (last (p :: P) p).
Proof.
  intros R S p P HS HP; unfold unique_styles.
  destruct S as [|s0 S']; [congruence|].
  rewrite <- HP. unfold merge_adjacent.
  apply (merge_fold_chain _ _ [] p p); [|reflexivity].
  rewrite interval_styles_map by apply interval_points_sorted.
  rewrite HP; apply windows_chain; rewrite <- HP; apply interval_points_sorted.
Qed.

(** ** A point that is no span's endpoint does not change the output *)

Lemma style_eqb_refl : forall s, style_eqb s s = true.
Proof.
  assert (Ho : forall o, opt_eqb o o = true) by (intros [x|]; simpl; [apply Nat.eqb_refl|reflexivity]).
  intros [c w f b u k o]; unfold style_eqb; simpl; rewrite !Ho; reflexivity.
Qed.

Lemma top_style_ext : forall S iv1 iv2,
  (forall r a, In (r, a) S -> covers r iv1 = covers r iv2) ->
  top_style iv1 S = top_style iv2 S.
Proof.
  intros S iv1 iv2; unfold top_style; generalize (@None HighlightStyle).
  induction S as [|[r a] S IH]; intros acc H; simpl; [reflexivity|].
  rewrite (H r a (or_introl eq_refl)); apply IH.
  intros r' a' Hin; apply (H r' a'); right; exact Hin.
Qed.

Lemma sorted_gap : forall P1 p q P2, StronglySorted lt (P1 ++ p :: q :: P2) ->
  forall e, In e (P1 ++ p :: q :: P2) -> e <= p \/ q <= e.
Proof.
  induction P1 as [|y P1 IH]; intros p q P2 H e He; simpl in *.
  - inversion H as [|? ? H' Hp]; subst; inversion H' as [|? ? H'' Hq]; subst.
    rewrite Forall_forall in Hq.
    destruct He as [->|[->|He]]; [left|right|right]; auto.
    apply Nat.lt_le_incl, Hq, He.
  - inversion H as [|? ? H' Hy]; subst; rewrite Forall_forall in Hy.
    destruct He as [<-|He]; [|apply (IH _ _ _ H' _ He)].
    left; apply Nat.lt_le_incl, Hy, in_or_app; right; left; reflexivity.
Qed.

Lemma btree_insert_gt : forall x y l, y < x -> btree_insert x (y :: l) = y :: btree_insert x l.
Proof.
  intros x y l H; simpl.
  rewrite (proj2 (Nat.ltb_ge x y)) by lia; rewrite (proj2 (Nat.eqb_neq x y)) by lia.
  reflexivity.
Qed.

Lemma btree_insert_split : forall P x lo hi, StronglySorted lt P -> ~ In x P ->
  In lo P -> In hi P -> lo <= x <= hi ->
  exists P1 p q P2, P = P1 ++ p :: q :: P2 /\ p < x < q /\
    btree_insert x P = P1 ++ p :: x :: q :: P2.
Proof.
  induction P as [|y P IH]; intros x lo hi H Hx Hlo Hhi Hb; [destruct Hlo|].
  inversion H as [|? ? H' Hy]; subst; rewrite Forall_forall in Hy.
  assert (Hyx : y < x).
  { assert (y <= lo) by (destruct Hlo as [->|Hlo]; [lia|specialize (Hy _ Hlo); lia]).
    destruct (Nat.eq_dec y x) as [->|]; [exfalso; apply Hx; left; reflexivity|lia]. }
  destruct P as [|z P].
  - destruct Hhi as [<-|[]]; lia.
  - assert (Hzx : z <> x) by (intros <-; apply Hx; right; left; reflexivity).
    destruct (Nat.lt_ge_cases x z) as [Hxz|Hxz].
    + exists [], y, z, P; split; [reflexivity|split; [lia|]].
      simpl; rewrite (proj2 (Nat.ltb_ge x y)) by lia.
      rewrite (proj2 (Nat.eqb_neq x y)) by lia.
      rewrite (proj2 (Nat.ltb_lt x z)) by lia; reflexivity.
    + destruct (IH x z hi H') as (P1 & p & q & P2 & HP & Hpq & Hins).
      * intros Hin; apply Hx; right; exact Hin.
      * left; reflexivity.
      * destruct Hhi as [<-|Hhi]; [lia|exact Hhi].
      * lia.
      * exists (y :: P1), p, q, P2; split; [rewrite HP; reflexivity|split; [exact Hpq|]].
        rewrite btree_insert_gt by exact Hyx; rewrite Hins; reflexivity.
Qed.

Lemma windows_app : forall l1 y l2,
  windows (l1 ++ y :: l2) = windows (l1 ++ [y]) ++ windows (y :: l2).
Proof.
  induction l1 as [|x l1 IH]; intros y l2; [reflexivity|].
  destruct l1 as [|z l1]; [reflexivity|].
  change ((x :: z :: l1) ++ y :: l2) with (x :: z :: (l1 ++ y :: l2)).
  change ((x :: z :: l1) ++ [y]) with (x :: z :: (l1 ++ [y])).
  rewrite !windows_cons2, <- app_comm_cons; f_equal; exact (IH y l2).
Qed.

Lemma merge_step_split : forall sig acc p x q s,
  btree_contains sig x = false ->
  merge_step sig (merge_step sig acc (mkRange p x, s)) (mkRange x q, s) =
  merge_step sig acc (mkRange p q, s).
Proof.
  intros sig acc p x q s Hx.
  destruct acc as [|[lr ls] rest]; simpl.
  - rewrite Nat.eqb_refl, style_eqb_refl, Hx; reflexivity.
  - destruct ((end_ lr =? p) && style_eqb ls s && negb (btree_contains sig p)) eqn:E; simpl.
    + apply andb_prop in E as [E _]; apply andb_prop in E as [_ E].
      rewrite Nat.eqb_refl, E, Hx; reflexivity.
    + rewrite Nat.eqb_refl, style_eqb_refl, Hx; reflexivity.
Qed.

Lemma insert_invisible : forall S P P1 p q P2 x,
  StronglySorted lt P -> P = P1 ++ p :: q :: P2 ->
  btree_insert x P = P1 ++ p :: x :: q :: P2 -> p < x < q ->
  (forall e, endpoint S e -> In e P) ->
  merge_adjacent (significant_points S) (interval_styles (btree_insert x P) S) =
  merge_adjacent (significant_points S) (interval_styles P S).
Proof.
  intros S P P1 p q P2 x HP Heq Hins Hx HE.
  assert (Hgap : forall r a, In (r, a) S ->
            (start r <= p \/ q <= start r) /\ (end_ r <= p \/ q <= end_ r)).
  { intros r a Hin; rewrite Heq in HP, HE.
    split; apply (sorted_gap _ _ _ _ HP), HE; exists r, a; auto. }
  assert (Hsig : btree_contains (significant_points S) x = false).
  { destruct (btree_contains (significant_points S) x) eqn:E; [|reflexivity].
    apply significant_contains in E as (r & a & Hin & ->).
    destruct (Hgap r a Hin) as [_ [|]]; lia. }
  assert (E1 : top_style (mkRange p x) S = top_style (mkRange p q) S).
  { apply top_style_ext; intros r a Hin; destruct (Hgap r a Hin) as [_ He].
    unfold covers; simpl.
    destruct (Nat.leb_spec x (end_ r)), (Nat.leb_spec q (end_ r)); try reflexivity; lia. }
  assert (E2 : top_style (mkRange x q) S = top_style (mkRange p q) S).
  { apply top_style_ext; intros r a Hin; destruct (Hgap r a Hin) as [Hs _].
    unfold covers; simpl.
    destruct (Nat.leb_spec (start r) x), (Nat.leb_spec (start r) p); try reflexivity; lia. }
  rewrite !interval_styles_map by (try apply btree_insert_sorted; exact HP).
  rewrite Hins, Heq.
  rewrite (windows_app P1 p (x :: q :: P2)), (windows_app P1 p (q :: P2)).
  rewrite (windows_cons2 p x (q :: P2)), (windows_cons2 x q P2), (windows_cons2 p q P2).
  rewrite !map_app, !map_cons, E1, E2.
  unfold merge_adjacent; f_equal; rewrite !fold_left_app; cbn [fold_left].
  rewrite merge_step_split by exact Hsig; reflexivity.
Qed.

Lemma insert_in_hull : forall S P x lo hi,
  StronglySorted lt P -> (forall e, endpoint S e -> In e P) ->
  In lo P -> In hi P -> lo <= x <= hi ->
  merge_adjacent (significant_points S) (interval_styles (btree_insert x P) S) =
  merge_adjacent (significant_points S) (interval_styles P S).
Proof.
  intros S P x lo hi HP HE Hlo Hhi Hx.
  destruct (in_dec Nat.eq_dec x P) as [Hin|Hnin].
  - rewrite btree_insert_present by assumption; reflexivity.
  - destruct (btree_insert_split P x lo hi HP Hnin Hlo Hhi Hx)
      as (P1 & p & q & P2 & Heq & Hpq & Hins).
    exact (insert_invisible S P P1 p q P2 x HP Heq Hins Hpq HE).
Qed.

(** ** A chain is a fixed point *)

Lemma chain_bounds : forall {A} (O : list (Range * A)) a b r s,
  chain a O b -> In (r, s) O -> a <= start r /\ start r < end_ r /\ end_ r <= b.
Proof.
  intros A; induction O as [|[r' s'] O IH]; intros a b r s Hc Hin; [destruct Hin|].
  destruct Hc as (Hs & Hlt & Hc); destruct Hin as [Heq|Hin].
  - injection Heq as -> ->; apply chain_le in Hc; lia.
  - destruct (IH _ _ _ _ Hc Hin); lia.
Qed.

Lemma chain_points_sorted : forall {A} (O : list (Range * A)) a b,
  chain a O b -> StronglySorted lt (chain_points a O).
Proof.
  intros A; induction O as [|[r s] O IH]; intros a b Hc; unfold chain_points in *.
  - repeat constructor.
  - destruct Hc as (<- & Hlt & Hc); simpl map.
    constructor; [exact (IH _ _ Hc)|].
    constructor; [exact Hlt|].
    apply Forall_forall; intros x Hx; apply in_map_iff in Hx as ([r' s'] & <- & Hin).
    destruct (chain_bounds _ _ _ _ _ Hc Hin); simpl; lia.
Qed.

Lemma windows_chain_points : forall {A} (O : list (Range * A)) a b,
  chain a O b -> windows (chain_points a O) = map fst O.
Proof.
  intros A; induction O as [|[r s] O IH]; intros a b Hc; [reflexivity|].
  destruct Hc as (Hs & Hlt & Hc); unfold chain_points in *; simpl map.
  rewrite windows_cons2, (IH _ _ Hc); f_equal.
  destruct r; simpl in *; subst; reflexivity.
Qed.

Lemma top_fold_skip : forall iv L acc,
  (forall r a, In (r, a) L -> covers r iv = false) -> fold_left (top_step iv) L acc = acc.
Proof.
  intros iv; induction L as [|[r a] L IH]; intros acc H; [reflexivity|]; simpl.
  rewrite (H r a (or_introl eq_refl)); apply IH.
  intros r' a' Hin; apply (H r' a'); right; exact Hin.
Qed.

Lemma top_style_in_chain : forall O a b r s,
  chain a O b -> In (r, s) O -> top_style r O = Some s.
Proof.
  intros O a b r s Hc Hin.
  destruct (in_split _ _ Hin) as (O1 & O2 & ->).
  apply chain_app in Hc as (m & H1 & H2); destruct H2 as (Hs & Hlt & H2).
  unfold top_style; rewrite fold_left_app.
  rewrite (top_fold_skip r O1).
  - simpl; unfold covers; rewrite !Nat.leb_refl; simpl.
    apply top_fold_skip; intros r' a' Hin'.
    destruct (chain_bounds _ _ _ _ _ H2 Hin'); unfold covers.
    rewrite (proj2 (Nat.leb_gt (start r') (start r))) by lia; reflexivity.
  - intros r' a' Hin'; destruct (chain_bounds _ _ _ _ _ H1 Hin'); unfold covers.
    rewrite (proj2 (Nat.leb_gt (end_ r) (end_ r'))) by lia; apply andb_false_r.
Qed.

Lemma interval_styles_chain : forall O a b,
  chain a O b -> interval_styles (chain_points a O) O = O.
Proof.
  intros O a b Hc.
  rewrite interval_styles_map by exact (chain_points_sorted _ _ _ Hc).
  rewrite (windows_chain_points _ _ _ Hc), map_map.
  rewrite <- (map_id O) at 2; apply map_ext_in; intros [r s] Hin; simpl.
  rewrite (top_style_in_chain _ _ _ _ _ Hc Hin); reflexivity.
Qed.

Lemma merge_chain_id : forall sig l acc m b,
  chain m l b -> (acc <> [] -> btree_contains sig m = true) ->
  (forall r s, In (r, s) l -> btree_contains sig (end_ r) = true) ->
  fold_left (merge_step sig) l acc = rev l ++ acc.
Proof.
  intros sig; induction l as [|[r s] l IH]; intros acc m b Hc Hacc Hl; [reflexivity|].
  destruct Hc as (Hs & Hlt & Hc); cbn [fold_left rev].
  assert (E : merge_step sig acc (r, s) = (r, s) :: acc).
  { destruct acc as [|[lr ls] rest]; [reflexivity|]; simpl.
    rewrite Hs, (Hacc ltac:(discriminate)), andb_false_r; reflexivity. }
  rewrite E, (IH _ (end_ r) b Hc).
  - rewrite <- app_assoc; reflexivity.
  - intros _; apply (Hl r s), or_introl, eq_refl.
  - intros r' s' Hin; apply (Hl r' s'); right; exact Hin.
Qed.

Lemma chain_endpoints : forall {A} (O : list (Range * A)) a b x,
  chain a O b -> O <> [] -> (endpoint O x <-> In x (chain_points a O)).
Proof.
  intros A; induction O as [|[r s] O IH]; intros a b x Hc Hne; [congruence|].
  destruct Hc as (Hs & Hlt & Hc); unfold chain_points in *; unfold endpoint in *.
  destruct O as [|o O].
  - simpl; split.
    + intros (r' & s' & [Heq|[]] & Hx); injection Heq as -> ->; intuition congruence.
    + intros [<-|[<-|[]]]; exists r, s; split; [left|left|left|right]; auto.
  - specialize (IH (end_ r) b x Hc ltac:(discriminate)).
    simpl map in *; simpl In in *; split.
    + intros (r' & s' & [Heq|Hin] & Hx).
      * injection Heq as -> ->; intuition congruence.
      * right; apply IH; exists r', s'; auto.
    + intros [<-|Hx].
      * exists r, s; split; [left; reflexivity|left; auto].
      * apply IH in Hx as (r' & s' & Hin & Hx'); exists r', s'; split; [right|]; auto.
Qed.

Lemma chain_end_in : forall {A} (O : list (Range * A)) a b,
  chain a O b -> In b (chain_points a O).
Proof.
  intros A; induction O as [|[r s] O IH]; intros a b Hc; unfold chain_points in *.
  - left; exact Hc.
  - destruct Hc as (_ & _ & Hc); right; exact (IH _ _ Hc).
Qed.

Lemma sorted_hull : forall P p x, StronglySorted lt (p :: P) -> In x (p :: P) ->
  p <= x <= last (p :: P) p.
Proof.
  induction P as [|q P IH]; intros p x H Hx.
  - destruct Hx as [<-|[]]; simpl; lia.
  - inversion H as [|? ? H' Hp]; subst; inversion Hp; subst.
    change (last (p :: q :: P) p) with (last (q :: P) p).
    rewrite (last_cons_default P q p q).
    destruct Hx as [<-|Hx].
    + pose proof (IH q q H' (or_introl eq_refl)); lia.
    + pose proof (IH q x H' Hx); lia.
Qed.

Lemma chain_fixpoint : forall R O a b,
  chain a O b -> O <> [] -> a <= start R <= b -> a <= end_ R <= b ->
  unique_styles R O = O.
Proof.
  intros R O a b Hc Hne HRs HRe.
  pose proof (chain_points_sorted _ _ _ Hc) as HQ.
  pose proof (chain_end_in _ _ _ Hc) as Hb.
  assert (Ha : In a (chain_points a O)) by (left; reflexivity).
  assert (HE : forall e, endpoint O e -> In e (chain_points a O))
    by (intros e; apply (chain_endpoints _ _ _ _ Hc Hne)).
  assert (HP : interval_points R O =
               btree_insert (end_ R) (btree_insert (start R) (chain_points a O))).
  { apply sorted_ext; [apply interval_points_sorted|
                       apply btree_insert_sorted, btree_insert_sorted, HQ|].
    intros x; rewrite interval_points_in, !btree_insert_in,
      (chain_endpoints _ _ _ _ Hc Hne); tauto. }
  assert (E : unique_styles R O =
              merge_adjacent (significant_points O) (interval_styles (interval_points R O) O))
    by (destruct O; [congruence|reflexivity]).
  rewrite E, HP.
  rewrite (insert_in_hull O _ (end_ R) a b).
  2: apply btree_insert_sorted, HQ.
  2: intros e He; apply btree_insert_in; right; apply HE, He.
  2, 3: apply btree_insert_in; right; assumption.
  2: exact HRe.
  rewrite (insert_in_hull O _ (start R) a b HQ HE Ha Hb HRs).
  rewrite (interval_styles_chain _ _ _ Hc); unfold merge_adjacent.
  rewrite (merge_chain_id _ O [] a b Hc).
  - rewrite app_nil_r; apply rev_involutive.
  - intros H; congruence.
  - intros r s Hin; apply significant_contains; exists r, s; auto.
Qed.

(** ** Claims on the normalizer *)

(** C5: normalization is idempotent: for every total range [R] and every
    span list [S], [unique_styles R (unique_styles R S) = unique_styles R S]. *)
Theorem unique_styles_idempotent : forall R S,
  unique_styles R (unique_styles R S) = unique_styles R S.
Proof.
  intros R S.
  destruct S as [|s0 S'] eqn:HS; [reflexivity|]; rewrite <- HS.
  assert (HR : In (start R) (interval_points R S))
    by (apply interval_points_in; left; reflexivity).
  destruct (interval_points R S) as [|p P] eqn:HP; [destruct HR|].
  pose proof (unique_styles_chain R S p P ltac:(subst; discriminate) HP) as Hc.
  destruct (unique_styles R S) as [|o O] eqn:HO; [reflexivity|].
  assert (HRe : In (end_ R) (p :: P))
    by (rewrite <- HP; apply interval_points_in; right; left; reflexivity).
  pose proof (interval_points_sorted R S) as Hsort; rewrite HP in Hsort.
  apply (chain_fixpoint _ _ p (last (p :: P) p) Hc); [discriminate| |].
  - apply sorted_hull; assumption.
  - apply sorted_hull; assumption.
Qed.

(** C6: the regression of [test_unique_styles]: over [0..65) the nine input
    spans normalize to exactly the twelve listed spans, in that order. *)
Theorem unique_styles_regression :
  unique_styles (mkRange 0 65)
    [sp 2 10 clean; sp 2 10 clean; sp 5 11 red; sp 2 6 clean; sp 10 15 green;
     sp 15 30 clean; sp 29 35 blue; sp 35 40 green; sp 45 60 blue] =
  [sp 0 5 clean; sp 5 6 red; sp 6 10 red; sp 10 11 green; sp 11 15 green;
   sp 15 29 clean; sp 29 30 blue; sp 30 35 blue; sp 35 40 green; sp 40 45 clean;
   sp 45 60 blue; sp 60 65 clean].
Proof. vm_compute; reflexivity. Qed.

(** C1 (failing input): over [R = 0..10], a matched item [15..20] that lies
    past the end of [R] is "clipped" to the empty range [15..15] (the clip
    sets [end = start] instead of bringing [start] back into [R]); its end is
    then a boundary, and [styles] returns the single span [0..15], which
    reaches past [R]. *)
Theorem styles_past_range_end :
  styles (mkRange 0 10) (fun _ => Some red) [mkItem (mkRange 15 20) "keyword"%string] =
  [(mkRange 0 15, style_default)].
Proof. vm_compute; reflexivity. Qed.

Lemma last_in : forall {A} (l : list A) x, In (last (x :: l) x) (x :: l).
Proof.
  intros A; induction l as [|y l IH]; intros x; [left; reflexivity|].
  change (last (x :: y :: l) x) with (last (y :: l) x).
  rewrite (last_cons_default l y x y); right; apply IH.
Qed.

Lemma clip_to_bounds : forall R nr, start R <= end_ R -> start nr <= end_ R ->
  start R <= start (clip_to R nr) /\ start (clip_to R nr) <= end_ (clip_to R nr) /\
  end_ (clip_to R nr) <= end_ R.
Proof.
  intros R nr H1 H2; unfold clip_to.
  destruct (Nat.min (end_ nr) (end_ R) <? Nat.max (start nr) (start R)) eqn:E;
    [apply Nat.ltb_lt in E|apply Nat.ltb_ge in E]; simpl; lia.
Qed.

(** C1, the part that holds: when every matched item starts at or before the
    end of a non-empty requested range [R], the output of [styles] is a chain
    from [start R] to [end_ R]: sorted, pairwise disjoint, and covering exactly
    [R]; with no matched item it is the single default span [R]. *)
Theorem styles_cover_range : forall R theme hs,
  start R < end_ R -> (forall it, In it hs -> start (item_range it) <= end_ R) ->
  chain (start R) (styles R theme hs) (end_ R) /\
  styles R theme [] = [(mkRange (start R) (end_ R), style_default)].
Proof.
  intros R theme hs HR Hhs; split; [|reflexivity].
  destruct hs as [|h hs'] eqn:Ehs.
  - simpl; auto.
  - rewrite <- Ehs in Hhs |- *; unfold styles.
    set (sts := map _ hs).
    assert (Hne : sts <> []) by (subst sts hs; discriminate).
    assert (Hb : forall x, In x (interval_points R sts) -> start R <= x <= end_ R).
    { intros x Hx; apply interval_points_in in Hx as [->|[->|(r & a & Hin & Hx)]]; [lia|lia|].
      subst sts; apply in_map_iff in Hin as (it & Heq & Hit); injection Heq as <- _.
      pose proof (clip_to_bounds R (item_range it) ltac:(lia) (Hhs it Hit)); lia. }
    assert (HsR : In (start R) (interval_points R sts))
      by (apply interval_points_in; left; reflexivity).
    assert (HeR : In (end_ R) (interval_points R sts))
      by (apply interval_points_in; right; left; reflexivity).
    pose proof (interval_points_sorted R sts) as Hsort.
    destruct (interval_points R sts) as [|p P] eqn:HP; [destruct HsR|].
    pose proof (unique_styles_chain R sts p P Hne HP) as Hc.
    replace (start R) with p
      by (pose proof (sorted_hull P p _ Hsort HsR); pose proof (Hb p (or_introl eq_refl)); lia).
    replace (end_ R) with (last (p :: P) p)
      by (pose proof (sorted_hull P p _ Hsort HeR); pose proof (Hb _ (last_in P p)); lia).
    destruct sts; [congruence|exact Hc].
Qed.

Lemma styles_cover_range_witness :
  chain 0 (styles (mkRange 0 10) (fun _ => Some red)
             [mkItem (mkRange 2 5) "keyword"%string; mkItem (mkRange 4 20) "string"%string]) 10.
Proof.
  refine (proj1 (styles_cover_range (mkRange 0 10) _ _ _ _)); simpl; [lia|].
  intros it [<-|[<-|[]]]; simpl; lia.
Defined.

(** ** The match collector *)

(** C4, as the code does it: when the capture starts at or after the end of
    the last pushed item and carries the same name, [push_capture] appends a
    new item from the last item's start to the capture's end; the earlier
    item stays, and the list grows by one. *)
Theorem push_capture_same_name : forall hl it node_range name,
  last_opt hl = Some it -> end_ (item_range it) <= start node_range -> item_name it = name ->
  push_capture hl node_range name =
    hl ++ [mkItem (mkRange (start (item_range it)) (end_ node_range)) name] /\
  List.length (push_capture hl node_range name) = S (List.length hl).
Proof.
  intros hl it node_range name Hlast Hle Hname.
  assert (E : push_capture hl node_range name =
              hl ++ [mkItem (mkRange (start (item_range it)) (end_ node_range)) name]).
  { unfold push_capture; rewrite Hlast; simpl.
    rewrite (proj2 (Nat.leb_le _ _) Hle), Hname, String.eqb_refl; reflexivity. }
  split; [exact E|]; rewrite E, length_app; simpl; lia.
Qed.

Lemma push_capture_same_name_witness :
  push_capture [mkItem (mkRange 0 5) "keyword"%string] (mkRange 5 8) "keyword"%string =
    [mkItem (mkRange 0 5) "keyword"%string; mkItem (mkRange 0 8) "keyword"%string] /\
  List.length (push_capture [mkItem (mkRange 0 5) "keyword"%string] (mkRange 5 8)
                 "keyword"%string) = 2.
Proof.
  exact (push_capture_same_name [mkItem (mkRange 0 5) "keyword"%string]
           (mkItem (mkRange 0 5) "keyword"%string) (mkRange 5 8) "keyword"%string
           eq_refl (le_n 5) eq_refl).
Defined.

(** C4 (counterexample): two adjacent [keyword] captures [0..5] and [5..8] of
    one match leave two items, [0..5] and [0..8]: the last span is not
    extended in place. *)
Theorem match_captures_adjacent_grows :
  match_captures (mkQuery [] ["keyword"%string]) []
    [mkCapture (mkRange 0 5) 0; mkCapture (mkRange 5 8) 0] =
    [mkItem (mkRange 0 5) "keyword"%string; mkItem (mkRange 0 8) "keyword"%string].
Proof. vm_compute; reflexivity. Qed.

(** ** The injection handler *)

Section Injection.

Variable names : list string.
Variables start_offset end_offset : nat.

Lemma injection_captures_sound : forall (Pc : QueryCapture -> Prop) caps st,
  (forall c, In c caps -> Pc c) ->
  (forall r n, In (r, n) (fst st) -> start_offset <= start r /\ end_ r <= end_offset /\
     exists c, Pc c /\ r = mkRange (start_offset + start (cap_node c))
                                   (start_offset + end_ (cap_node c)) /\
               nth_error names (cap_index c) = Some n) ->
  forall r n, In (r, n) (fst (injection_captures names start_offset end_offset caps st)) ->
  start_offset <= start r /\ end_ r <= end_offset /\
  exists c, Pc c /\ r = mkRange (start_offset + start (cap_node c))
                                (start_offset + end_ (cap_node c)) /\
            nth_error names (cap_index c) = Some n.
Proof.
  intros Pc; induction caps as [|cap caps IH]; intros [cache last_end] Hcaps Hst;
    [exact Hst|]; simpl.
  destruct (start_offset + start (cap_node cap) <? last_end);
    [apply IH; auto; intros c Hc; apply Hcaps; right; exact Hc|].
  destruct (end_offset <? start_offset + end_ (cap_node cap)) eqn:Eend; [exact Hst|].
  destruct (nth_error names (cap_index cap)) as [hn|] eqn:Ename;
    apply IH; try (intros c Hc; apply Hcaps; right; exact Hc); [|exact Hst].
  intros r n Hin; simpl in Hin; apply in_app_or in Hin as [Hin|[Heq|[]]]; [exact (Hst r n Hin)|].
  injection Heq as <- <-; apply Nat.ltb_ge in Eend; simpl.
  split; [lia|split; [exact Eend|]].
  exists cap; split; [apply Hcaps; left; reflexivity|split; [reflexivity|exact Ename]].
Qed.

Lemma injection_spans_sound : forall ms r n,
  In (r, n) (injection_spans names start_offset end_offset ms) ->
  start_offset <= start r /\ end_ r <= end_offset /\
  exists m c, In m ms /\ In c (captures m) /\
    r = mkRange (start_offset + start (cap_node c)) (start_offset + end_ (cap_node c)) /\
    nth_error names (cap_index c) = Some n.
Proof.
  intros ms.
  assert (H : forall ms' st, (forall m, In m ms' -> In m ms) ->
    (forall r n, In (r, n) (fst st) -> start_offset <= start r /\ end_ r <= end_offset /\
       exists c, (exists m, In m ms /\ In c (captures m)) /\
         r = mkRange (start_offset + start (cap_node c)) (start_offset + end_ (cap_node c)) /\
         nth_error names (cap_index c) = Some n) ->
    forall r n, In (r, n) (fst (fold_left (fun st m =>
        injection_captures names start_offset end_offset (captures m) st) ms' st)) ->
    start_offset <= start r /\ end_ r <= end_offset /\
       exists c, (exists m, In m ms /\ In c (captures m)) /\
         r = mkRange (start_offset + start (cap_node c)) (start_offset + end_ (cap_node c)) /\
         nth_error names (cap_index c) = Some n).
  { induction ms' as [|m ms' IH]; intros st Hsub Hst; [exact Hst|]; simpl.
    apply IH; [intros m' Hm'; apply Hsub; right; exact Hm'|].
    apply injection_captures_sound; [|exact Hst].
    intros c Hc; exists m; split; [apply Hsub; left; reflexivity|exact Hc]. }
  intros r n Hin; unfold injection_spans in Hin.
  destruct (H ms ([], start_offset) (fun m Hm => Hm) ltac:(intros ? ? [])
              r n Hin) as (H1 & H2 & c & (m & Hm & Hc) & Hr & Hn).
  split; [exact H1|split; [exact H2|]]; exists m, c; auto.
Qed.

Lemma spans_upto_app : forall l1 l2 lo hi,
  spans_upto lo (l1 ++ l2) hi <-> exists m, spans_upto lo l1 m /\ spans_upto m l2 hi.
Proof.
  induction l1 as [|[r n] l1 IH]; intros l2 lo hi; simpl.
  - split; [intros H; exists lo; auto|intros (m & -> & H); exact H].
  - rewrite IH; split.
    + intros (H1 & m & H2 & H3); exists m; auto.
    + intros (m & (H1 & H2) & H3); split; [exact H1|exists m; auto].
Qed.

Lemma injection_captures_ordered : forall caps cache last_end,
  spans_upto start_offset cache last_end ->
  let st := injection_captures names start_offset end_offset caps (cache, last_end) in
  spans_upto start_offset (fst st) (snd st).
Proof.
  induction caps as [|cap caps IH]; intros cache last_end H; [exact H|]; simpl.
  destruct (start_offset + start (cap_node cap) <? last_end) eqn:Elt; [apply IH, H|].
  destruct (end_offset <? start_offset + end_ (cap_node cap)); [exact H|].
  destruct (nth_error names (cap_index cap)); apply IH; [|exact H].
  apply spans_upto_app; exists last_end; split; [exact H|]; simpl.
  apply Nat.ltb_ge in Elt; split; [exact Elt|reflexivity].
Qed.

Lemma injection_spans_ordered : forall ms,
  exists hi, spans_upto start_offset (injection_spans names start_offset end_offset ms) hi.
Proof.
  intros ms; unfold injection_spans.
  assert (H : forall ms' st, spans_upto start_offset (fst st) (snd st) ->
    let st' := fold_left (fun st m =>
        injection_captures names start_offset end_offset (captures m) st) ms' st in
    spans_upto start_offset (fst st') (snd st')).
  { induction ms' as [|m ms' IH]; intros [cache last_end] Hst; [exact Hst|]; simpl.
    apply IH, injection_captures_ordered, Hst. }
  eexists; apply (H ms ([], start_offset)); reflexivity.
Qed.

End Injection.

Lemma spans_upto_pairwise : forall l lo hi,
  spans_upto lo l hi -> Forall (fun x => start (fst x) <= end_ (fst x)) l ->
  Forall (fun x => lo <= start (fst x)) l /\
  ForallOrdPairs (fun x y => end_ (fst x) <= start (fst y)) l.
Proof.
  induction l as [|[r n] l IH]; intros lo hi Hs Hw; [split; constructor|].
  destruct Hs as (Hlo & Hs); inversion Hw as [|? ? Hwr Hw']; subst; simpl in Hwr.
  destruct (IH _ _ Hs Hw') as (Hst & Hpairs).
  split.
  - constructor; [exact Hlo|]; eapply Forall_impl; [|exact Hst]; simpl; intros; lia.
  - constructor; [exact Hst|exact Hpairs].
Qed.

(** ** [handle_injection] *)

Lemma handle_injection_cases :
  forall {Tree Language SubTree : Type} registry set_language_ok clip_offset
    (parse_fresh : Language -> string -> option SubTree) sub_matches
    (self : SyntaxHighlighter Tree) lang node,
  let so := clip_offset (text self) (start node) Left in
  let eo := clip_offset (text self) (end_ node) Right in
  let content := rope_slice (text self) so eo in
  handle_injection registry set_language_ok clip_offset parse_fresh sub_matches
    self lang node = [] \/
  exists q cfg sub_tree,
    map_get lang (injection_queries self) = Some q /\ registry lang = Some cfg /\
    parse_fresh (config_language cfg) content = Some sub_tree /\
    handle_injection registry set_language_ok clip_offset parse_fresh sub_matches
      self lang node = injection_spans (capture_names q) so eo (sub_matches q sub_tree content).
Proof.
  intros Tree Language SubTree registry set_language_ok clip_offset parse_fresh sub_matches
    self lang node so eo content; unfold handle_injection; fold so eo content.
  destruct (map_get lang (injection_queries self)) as [q|]; [|left; reflexivity].
  destruct (String.length content =? 0); [left; reflexivity|].
  destruct (registry lang) as [cfg|]; [|left; reflexivity].
  destruct (negb (set_language_ok (config_language cfg))); [left; reflexivity|].
  destruct (parse_fresh (config_language cfg) content) as [sub_tree|] eqn:Ep;
    [|left; reflexivity].
  right; exists q, cfg, sub_tree; auto.
Qed.

(** ** [update] *)

Lemma update_changed :
  forall {Tree : Type} tree_edit parse (self : SyntaxHighlighter Tree) edit txt empty_tree,
  String.eqb (text self) txt = false -> parse EmptyString None = Some empty_tree ->
  update tree_edit parse self edit txt =
    let e := match edit with Some e => e | None => default_edit txt end in
    let old_tree := tree_edit e (match tree self with Some t => t | None => empty_tree end) in
    match parse txt (Some old_tree) with
    | None => Done (with_state self (text self) (S (S (parser self))) None)
    | Some new_tree => Done (with_state self txt (S (S (parser self))) (Some new_tree))
    end.
Proof.
  intros Tree tree_edit parse self edit txt empty_tree Hneq Hempty.
  unfold update; rewrite Hneq, Hempty; simpl.
  destruct (parse txt _); reflexivity.
Qed.

(** C2 (code bug): when the text changes and the reparse fails, [update]
    returns with the old text but without any tree: the tree was taken out
    of the engine before the reparse and is not put back. *)
Theorem update_failure_drops_tree :
  forall {Tree : Type} tree_edit parse (self : SyntaxHighlighter Tree) edit txt empty_tree,
  text self <> txt -> parse EmptyString None = Some empty_tree ->
  (forall t, parse txt (Some t) = None) ->
  exists h, update tree_edit parse self edit txt = Done h /\
            text h = text self /\ tree h = None.
Proof.
  intros Tree tree_edit parse self edit txt empty_tree Hneq Hempty Hfail.
  rewrite (update_changed tree_edit parse self edit txt empty_tree); [|apply String.eqb_neq, Hneq|exact Hempty].
  cbv zeta; rewrite Hfail; eexists; split; [reflexivity|split; reflexivity].
Qed.

(** The engine with text ["a"] and a tree, given ["b"] by a parser that only
    parses the empty text, is left with text ["a"] and no tree. *)
Lemma update_failure_drops_tree_witness :
  tree (@sample_highlighter unit "a"%string (Some tt) []) = Some tt /\
  exists h, update (fun _ t => t) parse_fails_on_text
              (sample_highlighter "a"%string (Some tt) []) None "b"%string = Done h /\
            text h = "a"%string /\ tree h = None.
Proof.
  split; [reflexivity|].
  exact (update_failure_drops_tree (fun _ t => t) parse_fails_on_text
           (sample_highlighter "a"%string (Some tt) []) None "b"%string tt
           ltac:(discriminate) eq_refl (fun _ => eq_refl)).
Defined.

(** C3 (code bug): given no edit, [update] edits the old tree with
    [start_byte = 0], [old_end_byte = 0] and [new_end_byte] the length of the
    NEW text, whatever the old text was: the old range is empty, not the
    whole previous text. *)
Theorem update_without_edit :
  forall {Tree : Type} tree_edit parse (self : SyntaxHighlighter Tree) txt empty_tree,
  text self <> txt -> parse EmptyString None = Some empty_tree ->
  let e := mkEdit 0 0 (String.length txt) (mkPoint 0 0) (mkPoint 0 0) (mkPoint 0 0) in
  let old_tree := tree_edit e (match tree self with Some t => t | None => empty_tree end) in
  update tree_edit parse self None txt =
    match parse txt (Some old_tree) with
    | None => Done (with_state self (text self) (S (S (parser self))) None)
    | Some new_tree => Done (with_state self txt (S (S (parser self))) (Some new_tree))
    end.
Proof.
  intros Tree tree_edit parse self txt empty_tree Hneq Hempty e old_tree.
  exact (update_changed tree_edit parse self None txt empty_tree
           (proj2 (String.eqb_neq _ _) Hneq) Hempty).
Qed.

(** Going from ["abc"] to ["xy"] with no edit, on a tree that records its
    edits: the one edit recorded has [old_end_byte = 0], not 3. *)
Lemma update_without_edit_witness :
  update record_edit parse_keep (sample_highlighter "abc"%string (Some []) []) None "xy"%string =
    Done (with_state (sample_highlighter "abc"%string (Some []) []) "xy"%string 2
            (Some [mkEdit 0 0 2 (mkPoint 0 0) (mkPoint 0 0) (mkPoint 0 0)])).
Proof.
  rewrite (update_without_edit record_edit parse_keep
             (sample_highlighter "abc"%string (Some []) []) "xy"%string []
             ltac:(discriminate) eq_refl).
  reflexivity.
Defined.

(** C7 (as the code does it): [update] with the stored text returns the
    engine unchanged, without parsing; after a call whose reparse gave a
    tree, a second call with the same text is such a no-op; and after a call
    with a new text whose reparse failed (no tree left), the old text is
    still stored, so a second call with the same text parses again: it
    returns an engine whose parser has run two more steps. *)
Theorem update_same_text_noop :
  forall {Tree : Type} tree_edit parse (self : SyntaxHighlighter Tree) edit edit' txt,
  (text self = txt -> update tree_edit parse self edit txt = Done self) /\
  (forall h1, update tree_edit parse self edit txt = Done h1 -> tree h1 <> None ->
              update tree_edit parse h1 edit' txt = Done h1) /\
  (forall h1, text self <> txt -> update tree_edit parse self edit txt = Done h1 ->
              tree h1 = None ->
              text h1 = text self /\ parser h1 = parser self + 2 /\
              exists h2, update tree_edit parse h1 edit' txt = Done h2 /\
                         parser h2 = parser h1 + 2).
Proof.
  intros Tree tree_edit parse self edit edit' txt.
  assert (Hnoop : forall h e, text h = txt -> update tree_edit parse h e txt = Done h).
  { intros h e Ht; unfold update; rewrite Ht, String.eqb_refl; reflexivity. }
  split; [apply Hnoop|split].
  - intros h1 Hup Htree; apply Hnoop.
    unfold update in Hup.
    destruct (String.eqb (text self) txt) eqn:Eq.
    + injection Hup as <-; apply String.eqb_eq, Eq.
    + destruct (parse EmptyString None); [|discriminate].
      destruct (parse txt _); injection Hup as <-; [reflexivity|].
      exfalso; apply Htree; reflexivity.
  - intros h1 Hne Hup Htree.
    unfold update in Hup.
    destruct (String.eqb (text self) txt) eqn:Eq;
      [apply String.eqb_eq in Eq; contradiction|].
    destruct (parse EmptyString None) as [empty_tree|] eqn:Hp; [|discriminate].
    destruct (parse txt _) as [new_tree|]; injection Hup as <-;
      [unfold with_state in Htree; discriminate Htree|].
    cbn [text parser with_state].
    split; [reflexivity|split; [lia|]].
    unfold update; cbn [text parser tree with_state]; rewrite Eq, Hp.
    destruct (parse txt _); eexists; (split; [reflexivity|cbn [parser with_state]; lia]).
Qed.

Lemma update_same_text_noop_witness :
  update (fun _ t => t) parse_fails_on_text (sample_highlighter "a"%string (Some tt) [])
    None "a"%string = Done (sample_highlighter "a"%string (Some tt) []) /\
  update (fun _ t => t) (fun _ _ => Some tt) (sample_highlighter "a"%string (Some tt) [])
    None "b"%string = Done (with_state (sample_highlighter "a"%string (Some tt) [])
                              "b"%string 2 (Some tt)) /\
  update (fun _ t => t) (fun _ _ => Some tt)
    (with_state (sample_highlighter "a"%string (Some tt) []) "b"%string 2 (Some tt))
    None "b"%string =
    Done (with_state (sample_highlighter "a"%string (Some tt) []) "b"%string 2 (Some tt)) /\
  exists h1,
    update (fun _ t => t) parse_fails_on_text (sample_highlighter "a"%string (Some tt) [])
      None "b"%string = Done h1 /\ tree h1 = None /\
    (text h1 = "a"%string /\ parser h1 = 0 + 2 /\
     exists h2, update (fun _ t => t) parse_fails_on_text h1 None "b"%string = Done h2 /\
                parser h2 = parser h1 + 2).
Proof.
  split; [apply (proj1 (update_same_text_noop (fun _ t => t) parse_fails_on_text
                           (sample_highlighter "a"%string (Some tt) []) None None "a"%string));
          reflexivity|].
  split; [reflexivity|].
  split.
  - apply (proj1 (proj2 (update_same_text_noop (fun _ t => t) (fun _ _ => Some tt)
                  (sample_highlighter "a"%string (Some tt) []) None None "b"%string))).
    + reflexivity.
    + discriminate.
  - eexists; split; [reflexivity|split; [reflexivity|]].
    apply (proj2 (proj2 (update_same_text_noop (fun _ t => t) parse_fails_on_text
             (sample_highlighter "a"%string (Some tt) []) None None "b"%string))).
    + discriminate.
    + reflexivity.
    + reflexivity.
Defined.

(** C7 (counterexample): after a call whose reparse failed, the old text is
    still stored, so a second call with the same new text reparses: with a
    parser that only parses the empty text, two calls with ["b"] run four
    parses. *)
Theorem update_twice_reparses :
  exists h1 h2,
    update (fun _ t => t) parse_fails_on_text (sample_highlighter "a"%string (Some tt) [])
      None "b"%string = Done h1 /\
    update (fun _ t => t) parse_fails_on_text h1 None "b"%string = Done h2 /\
    parser h1 = 2 /\ parser h2 = 4.
Proof.
  eexists; eexists; split; [reflexivity|split; [reflexivity|split; reflexivity]].
Qed.

(** ** [new] *)

(** C8 (modelled from the spec for the plain-text language): when the
    registry has ["text"] with a grammar the parser accepts and whose empty
    query compiles, [new] returns an engine for every language name; when
    building the requested language fails, that engine is the ["text"] one
    and a warning was logged. *)
Theorem new_falls_back_to_text :
  forall {Tree Language : Type} registry set_language_ok query_new (l : Language) q lang,
  registry "text"%string = Some (text_language_config l) ->
  set_language_ok l = true -> query_new l ""%string = Some q ->
  exists (h : SyntaxHighlighter Tree) logs,
    new registry set_language_ok query_new lang = Done (h, logs) /\
    forall err logs0,
      build_combined_injections_query (Tree := Tree) registry set_language_ok query_new lang
        = (Err err, logs0) ->
      language h = "text"%string /\ exists msg, In (Warn msg) logs.
Proof.
  intros Tree Language registry set_language_ok query_new l q lang Hreg Hset Hq.
  assert (Htext : exists h, build_combined_injections_query (Tree := Tree)
                    registry set_language_ok query_new "text"%string = (Ok h, []) /\
                    language h = "text"%string).
  { unfold build_combined_injections_query; rewrite Hreg; simpl; rewrite Hset; simpl.
    rewrite Hq; simpl.
    destruct (pattern_indices q 0 0) as [lpi hpi].
    eexists; split; reflexivity. }
  destruct Htext as (ht & Hbt & Hlt).
  unfold new.
  destruct (build_combined_injections_query registry set_language_ok query_new lang)
    as [[h|err] logs] eqn:Eb.
  - exists h, logs; split; [reflexivity|].
    intros err logs0 Herr; discriminate Herr.
  - rewrite Hbt; eexists; eexists; split; [reflexivity|].
    intros err' logs0 Herr; injection Herr as <- <-.
    split; [exact Hlt|].
    eexists; apply in_or_app; left; apply in_or_app; right; left; reflexivity.
Qed.

Lemma new_falls_back_to_text_witness :
  exists (h : SyntaxHighlighter unit) logs,
    new text_registry (fun _ => true) (fun _ _ => Some (mkQuery [] [])) "rust"%string
      = Done (h, logs) /\
    forall err logs0,
      build_combined_injections_query (Tree := unit) text_registry (fun _ => true)
        (fun _ _ => Some (mkQuery [] [])) "rust"%string = (Err err, logs0) ->
      language h = "text"%string /\ exists msg, In (Warn msg) logs.
Proof.
  exact (new_falls_back_to_text text_registry (fun _ => true)
           (fun _ _ => Some (mkQuery [] [])) tt (mkQuery [] []) "rust"%string
           eq_refl eq_refl eq_refl).
Defined.

(** ** The injection claims *)

(** C9: every span [handle_injection] emits lies inside the clipped content
    range [[so, eo]], and is the range of a capture of a match of the
    injected language's query on the fresh parse of the content slice,
    shifted by [so], labelled with that capture's name. *)
Theorem handle_injection_inside :
  forall {Tree Language SubTree : Type} registry set_language_ok clip_offset
    (parse_fresh : Language -> string -> option SubTree) sub_matches
    (self : SyntaxHighlighter Tree) lang node r name,
  In (r, name) (handle_injection registry set_language_ok clip_offset parse_fresh sub_matches
                  self lang node) ->
  let so := clip_offset (text self) (start node) Left in
  let eo := clip_offset (text self) (end_ node) Right in
  let content := rope_slice (text self) so eo in
  so <= start r /\ end_ r <= eo /\
  exists q cfg sub_tree m c,
    map_get lang (injection_queries self) = Some q /\ registry lang = Some cfg /\
    parse_fresh (config_language cfg) content = Some sub_tree /\
    In m (sub_matches q sub_tree content) /\ In c (captures m) /\
    r = mkRange (so + start (cap_node c)) (so + end_ (cap_node c)) /\
    nth_error (capture_names q) (cap_index c) = Some name.
Proof.
  intros Tree Language SubTree registry set_language_ok clip_offset parse_fresh sub_matches
    self lang node r name Hin so eo content.
  destruct (handle_injection_cases registry set_language_ok clip_offset parse_fresh
              sub_matches self lang node) as [Hnil|(q & cfg & sub_tree & Hq & Hcfg & Hp & Heq)];
    [rewrite Hnil in Hin; destruct Hin|].
  rewrite Heq in Hin.
  destruct (injection_spans_sound _ _ _ _ _ _ Hin) as (H1 & H2 & m & c & Hm & Hc & Hr & Hn).
  split; [exact H1|split; [exact H2|]].
  exists q, cfg, sub_tree, m, c; repeat split; assumption.
Qed.

(** A ["css"] region [1..3] of ["a{b}"]: its first span is [1..2]. *)
Lemma handle_injection_inside_witness :
  In (mkRange 1 2, "property"%string)
     (handle_injection css_registry (fun _ => true) clip_exact parse_unit css_matches
        (@sample_highlighter unit "a{b}"%string (Some tt) [("css"%string, css_query)])
        "css"%string (mkRange 1 3)) /\
  1 <= 1 /\ 2 <= 3 /\
  exists q cfg sub_tree m c,
    map_get "css"%string [("css"%string, css_query)] = Some q /\
    css_registry "css"%string = Some cfg /\
    parse_unit (config_language cfg) "{b"%string = Some sub_tree /\
    In m (css_matches q sub_tree "{b"%string) /\ In c (captures m) /\
    mkRange 1 2 = mkRange (1 + start (cap_node c)) (1 + end_ (cap_node c)) /\
    nth_error (capture_names q) (cap_index c) = Some "property"%string.
Proof.
  assert (Hin : In (mkRange 1 2, "property"%string)
     (handle_injection css_registry (fun _ => true) clip_exact parse_unit css_matches
        (@sample_highlighter unit "a{b}"%string (Some tt) [("css"%string, css_query)])
        "css"%string (mkRange 1 3))) by (vm_compute; left; reflexivity).
  split; [exact Hin|].
  exact (handle_injection_inside css_registry (fun _ => true) clip_exact parse_unit
           css_matches (sample_highlighter "a{b}"%string (Some tt) [("css"%string, css_query)])
           "css"%string (mkRange 1 3) (mkRange 1 2) "property"%string Hin).
Defined.

(** C10: when every capture node of the injected parse has [start <= end],
    the spans [handle_injection] emits start at or after the clipped content
    start, and each one ends at or before the start of every later one:
    sorted and pairwise non-overlapping. *)
Theorem handle_injection_ordered :
  forall {Tree Language SubTree : Type} registry set_language_ok clip_offset
    (parse_fresh : Language -> string -> option SubTree) sub_matches
    (self : SyntaxHighlighter Tree) lang node,
  (forall q t s m c, In m (sub_matches q t s) -> In c (captures m) ->
                     start (cap_node c) <= end_ (cap_node c)) ->
  let res := handle_injection registry set_language_ok clip_offset parse_fresh sub_matches
               self lang node in
  Forall (fun x => clip_offset (text self) (start node) Left <= start (fst x)) res /\
  ForallOrdPairs (fun x y => end_ (fst x) <= start (fst y)) res.
Proof.
  intros Tree Language SubTree registry set_language_ok clip_offset parse_fresh sub_matches
    self lang node Hwf res.
  assert (Hw : Forall (fun x => start (fst x) <= end_ (fst x)) res).
  { apply Forall_forall; intros [r name] Hin; simpl.
    destruct (handle_injection_inside registry set_language_ok clip_offset parse_fresh
                sub_matches self lang node r name Hin)
      as (_ & _ & q & cfg & sub_tree & m & c & _ & _ & _ & Hm & Hc & Hr & _).
    subst r; simpl; specialize (Hwf _ _ _ _ _ Hm Hc); lia. }
  unfold res in Hw |- *.
  destruct (handle_injection_cases registry set_language_ok clip_offset parse_fresh
              sub_matches self lang node) as [Hnil|(q & cfg & sub_tree & _ & _ & _ & Heq)].
  - rewrite Hnil; split; constructor.
  - rewrite Heq in Hw |- *.
    destruct (injection_spans_ordered (capture_names q)
                (clip_offset (text self) (start node) Left)
                (clip_offset (text self) (end_ node) Right)
                (sub_matches q sub_tree (rope_slice (text self)
                   (clip_offset (text self) (start node) Left)
                   (clip_offset (text self) (end_ node) Right)))) as (hi & Hs).
    exact (spans_upto_pairwise _ _ _ Hs Hw).
Qed.

Lemma handle_injection_ordered_witness :
  Forall (fun x => 1 <= start (fst x))
    (handle_injection css_registry (fun _ => true) clip_exact parse_unit css_matches
       (@sample_highlighter unit "a{b}"%string (Some tt) [("css"%string, css_query)])
       "css"%string (mkRange 1 3)) /\
  ForallOrdPairs (fun x y => end_ (fst x) <= start (fst y))
    (handle_injection css_registry (fun _ => true) clip_exact parse_unit css_matches
       (@sample_highlighter unit "a{b}"%string (Some tt) [("css"%string, css_query)])
       "css"%string (mkRange 1 3)).
Proof.
  apply (handle_injection_ordered css_registry (fun _ => true) clip_exact parse_unit
           css_matches (sample_highlighter "a{b}"%string (Some tt) [("css"%string, css_query)])
           "css"%string (mkRange 1 3)).
  intros q t s m c Hm Hc; simpl in Hm.
  destruct Hm as [<-|[<-|[]]]; simpl in Hc;
    repeat (destruct Hc as [<-|Hc]; [simpl; lia|]); contradiction.
Defined.

(** ** Further properties of the normalizer *)

Lemma override_assoc : forall {A} (a b c : option A),
  override (override a b) c = override a (override b c).
Proof. intros A a b [c|]; [reflexivity|destruct b; reflexivity]. Qed.

(** [merge_highlight_style] is associative, has the default style as a
    left and a right unit, and merging a style onto itself changes nothing:
    folding the covering spans' styles does not depend on how the fold is
    grouped. *)
Theorem merge_highlight_style_monoid : forall s t u,
  merge_highlight_style (merge_highlight_style s t) u =
    merge_highlight_style s (merge_highlight_style t u) /\
  merge_highlight_style style_default s = s /\
  merge_highlight_style s style_default = s /\
  merge_highlight_style s s = s.
Proof.
  intros [c1 w1 f1 b1 u1 k1 o1] [c2 w2 f2 b2 u2 k2 o2] [c3 w3 f3 b3 u3 k3 o3];
    unfold merge_highlight_style, style_default; simpl.
  rewrite !override_assoc.
  split; [reflexivity|].
  split; [destruct c1, w1, f1, b1, u1, k1, o1; reflexivity|].
  split; [reflexivity|].
  destruct c1, w1, f1, b1, u1, k1, o1; reflexivity.
Qed.

Lemma opt_eqb_eq : forall a b, opt_eqb a b = true -> a = b.
Proof.
  intros [x|] [y|]; simpl; try discriminate; [|reflexivity].
  intros H; apply Nat.eqb_eq in H; subst; reflexivity.
Qed.

Lemma style_eqb_eq : forall s t, style_eqb s t = true -> s = t.
Proof.
  intros [c1 w1 f1 b1 u1 k1 o1] [c2 w2 f2 b2 u2 k2 o2]; unfold style_eqb; simpl.
  intros H; repeat (apply andb_prop in H as [H ?H]).
  repeat match goal with Hx : opt_eqb _ _ = true |- _ => apply opt_eqb_eq in Hx; subst end.
  reflexivity.
Qed.

Lemma windows_in : forall P iv, In iv (windows P) ->
  exists P1 P2, P = P1 ++ start iv :: end_ iv :: P2.
Proof.
  induction P as [|x P IH]; intros iv Hin; [destruct Hin|].
  destruct P as [|y P]; [destruct Hin|].
  rewrite windows_cons2 in Hin; destruct Hin as [<-|Hin].
  - exists [], P; reflexivity.
  - destruct (IH iv Hin) as (P1 & P2 & HP); exists (x :: P1), P2; rewrite HP; reflexivity.
Qed.

(** No point of a sorted list lies strictly inside one of its windows. *)
Lemma window_gap : forall P iv e, StronglySorted lt P -> In iv (windows P) -> In e P ->
  e <= start iv \/ end_ iv <= e.
Proof.
  intros P iv e Hs Hw He; destruct (windows_in P iv Hw) as (P1 & P2 & HP); subst P.
  exact (sorted_gap P1 _ _ P2 Hs e He).
Qed.

Lemma window_covers_point : forall P (L : list (Range * HighlightStyle)) iv x,
  StronglySorted lt P -> In iv (windows P) -> (forall e, endpoint L e -> In e P) ->
  start iv <= x < end_ iv ->
  top_style iv L = top_style (mkRange x (S x)) L.
Proof.
  intros P L iv x Hs Hw Hend Hx; apply top_style_ext; intros r a Hin.
  assert (G1 := window_gap P iv (start r) Hs Hw (Hend _ (ex_intro _ r (ex_intro _ a (conj Hin (or_introl eq_refl)))))).
  assert (G2 := window_gap P iv (end_ r) Hs Hw (Hend _ (ex_intro _ r (ex_intro _ a (conj Hin (or_intror eq_refl)))))).
  unfold covers; cbn [start end_].
  destruct (start r <=? start iv) eqn:E1, (end_ iv <=? end_ r) eqn:E2,
    (start r <=? x) eqn:E3, (S x <=? end_ r) eqn:E4; try reflexivity;
    repeat match goal with
    | Hx : (_ <=? _) = true |- _ => apply Nat.leb_le in Hx
    | Hx : (_ <=? _) = false |- _ => apply Nat.leb_gt in Hx
    end; lia.
Qed.

Lemma merge_fold_pointwise : forall (f : nat -> HighlightStyle) sig l acc,
  (forall r s, In (r, s) l -> forall x, start r <= x < end_ r -> s = f x) ->
  (forall r s, In (r, s) acc -> forall x, start r <= x < end_ r -> s = f x) ->
  forall r s, In (r, s) (fold_left (merge_step sig) l acc) ->
  forall x, start r <= x < end_ r -> s = f x.
Proof.
  intros f sig; induction l as [|[r0 s0] l IH]; intros acc Hl Hacc; simpl; [exact Hacc|].
  apply IH; [intros r s Hin; apply Hl; right; exact Hin|].
  assert (H0 := Hl r0 s0 (or_introl eq_refl)).
  unfold merge_step; destruct acc as [|[lr ls] rest].
  - intros r s [Heq|[]]; injection Heq as <- <-; exact H0.
  - destruct ((end_ lr =? start r0) && style_eqb ls s0 && negb (btree_contains sig (start r0)))
      eqn:Em.
    + apply andb_prop in Em as [Em _]; apply andb_prop in Em as [Ee Es].
      apply Nat.eqb_eq in Ee; apply style_eqb_eq in Es; subst s0.
      intros r s [Heq|Hin] x Hx; [|exact (Hacc r s (or_intror Hin) x Hx)].
      injection Heq as <- <-; simpl in Hx.
      destruct (Nat.lt_ge_cases x (end_ lr)).
      * apply (Hacc lr ls (or_introl eq_refl)); lia.
      * apply H0; lia.
    + intros r s [Heq|Hin]; [injection Heq as <- <-; exact H0|exact (Hacc r s Hin)].
Qed.

(** The style of each output span of [unique_styles] is, at every byte [x]
    of the span, the fold ([merge_highlight_style], in input order) of the
    styles of the input spans containing [x], or the default style when no
    input span contains [x]. *)
Theorem unique_styles_pointwise : forall R L r st x,
  In (r, st) (unique_styles R L) -> start r <= x < end_ r ->
  st = unwrap_or_default (top_style (mkRange x (S x)) L).
Proof.
  intros R L r st x Hin Hx.
  destruct L as [|p0 S0] eqn:ES; [destruct Hin|]; rewrite <- ES in Hin |- *.
  assert (Hu : unique_styles R L = merge_adjacent (significant_points L)
                 (interval_styles (interval_points R L) L)) by (subst L; reflexivity).
  rewrite Hu in Hin; unfold merge_adjacent in Hin; apply in_rev in Hin.
  revert r st Hin x Hx; apply merge_fold_pointwise; [|intros ? ? []].
  intros r s Hin x Hx.
  rewrite interval_styles_map in Hin by apply interval_points_sorted.
  apply in_map_iff in Hin as (iv & Heq & Hw); injection Heq as <- <-.
  f_equal; apply (window_covers_point (interval_points R L)); auto.
  - apply interval_points_sorted.
  - intros e He; apply interval_points_in; right; right; exact He.
Qed.

Lemma unique_styles_pointwise_witness :
  In (mkRange 5 6, red)
     (unique_styles (mkRange 0 65)
        [sp 2 10 clean; sp 2 10 clean; sp 5 11 red; sp 2 6 clean; sp 10 15 green;
         sp 15 30 clean; sp 29 35 blue; sp 35 40 green; sp 45 60 blue]) /\
  red = unwrap_or_default (top_style (mkRange 5 6)
          [sp 2 10 clean; sp 2 10 clean; sp 5 11 red; sp 2 6 clean; sp 10 15 green;
           sp 15 30 clean; sp 29 35 blue; sp 35 40 green; sp 45 60 blue]).
Proof.
  assert (Hin : In (mkRange 5 6, red)
     (unique_styles (mkRange 0 65)
        [sp 2 10 clean; sp 2 10 clean; sp 5 11 red; sp 2 6 clean; sp 10 15 green;
         sp 15 30 clean; sp 29 35 blue; sp 35 40 green; sp 45 60 blue]))
    by (vm_compute; right; left; reflexivity).
  split; [exact Hin|].
  exact (unique_styles_pointwise (mkRange 0 65) _ (mkRange 5 6) red 5 Hin ltac:(simpl; lia)).
Defined.

Lemma merge_fold_no_straddle : forall sig l acc,
  (forall r s, In (r, s) l -> forall e, btree_contains sig e = true -> ~ (start r < e < end_ r)) ->
  (forall r s, In (r, s) acc -> forall e, btree_contains sig e = true -> ~ (start r < e < end_ r)) ->
  forall r s, In (r, s) (fold_left (merge_step sig) l acc) ->
  forall e, btree_contains sig e = true -> ~ (start r < e < end_ r).
Proof.
  intros sig; induction l as [|[r0 s0] l IH]; intros acc Hl Hacc; simpl; [exact Hacc|].
  apply IH; [intros r s Hin; exact (Hl r s (or_intror Hin))|].
  assert (H0 := Hl r0 s0 (or_introl eq_refl)).
  unfold merge_step; destruct acc as [|[lr ls] rest].
  - intros r s [Heq|[]]; injection Heq as <- <-; exact H0.
  - destruct ((end_ lr =? start r0) && style_eqb ls s0 && negb (btree_contains sig (start r0)))
      eqn:Em.
    + apply andb_prop in Em as [Em Hn]; apply andb_prop in Em as [Ee _].
      apply Nat.eqb_eq in Ee; apply negb_true_iff in Hn.
      intros r s [Heq|Hin] e He; [|exact (Hacc r s (or_intror Hin) e He)].
      injection Heq as <- <-; simpl; intros Hlt.
      destruct (Nat.lt_total e (end_ lr)) as [Hlt'|[Heq'|Hgt]].
      * apply (Hacc lr ls (or_introl eq_refl) e He); lia.
      * subst e; rewrite Ee in He; congruence.
      * apply (H0 e He); lia.
    + intros r s [Heq|Hin]; [injection Heq as <- <-; exact H0|exact (Hacc r s Hin)].
Qed.

(** No output span of [unique_styles] has the end of an input span strictly
    inside it: every input span's end stays a boundary of the output, even
    between equal styles. *)
Theorem unique_styles_keeps_ends : forall R L r st r0 s0,
  In (r, st) (unique_styles R L) -> In (r0, s0) L -> ~ (start r < end_ r0 < end_ r).
Proof.
  intros R L r st r0 s0 Hin Hin0.
  destruct L as [|p0 S0] eqn:ES; [destruct Hin|]; rewrite <- ES in Hin, Hin0.
  assert (Hu : unique_styles R L = merge_adjacent (significant_points L)
                 (interval_styles (interval_points R L) L)) by (subst L; reflexivity).
  rewrite Hu in Hin; unfold merge_adjacent in Hin; apply in_rev in Hin.
  refine (merge_fold_no_straddle _ _ [] _ _ r st Hin (end_ r0) _); [| intros ? ? []|].
  - intros r' s' Hin' e He.
    rewrite interval_styles_map in Hin' by apply interval_points_sorted.
    apply in_map_iff in Hin' as (iv & Heq & Hw); injection Heq as <- <-.
    apply significant_contains in He as (r1 & a1 & Hr1 & ->).
    assert (Hp : In (end_ r1) (interval_points R L))
      by (apply interval_points_in; right; right; exists r1, a1; auto).
    destruct (window_gap _ iv _ (interval_points_sorted R L) Hw Hp); lia.
  - apply significant_contains; exists r0, s0; auto.
Qed.

Lemma unique_styles_keeps_ends_witness :
  In (mkRange 5 6, red) (unique_styles (mkRange 0 65) [sp 2 6 clean; sp 5 11 red]) /\
  In (mkRange 2 6, clean) [sp 2 6 clean; sp 5 11 red] /\
  ~ (5 < 6 < 6).
Proof.
  assert (Hin : In (mkRange 5 6, red) (unique_styles (mkRange 0 65) [sp 2 6 clean; sp 5 11 red]))
    by (vm_compute; right; left; reflexivity).
  split; [exact Hin|split; [left; reflexivity|]].
  exact (unique_styles_keeps_ends (mkRange 0 65) [sp 2 6 clean; sp 5 11 red] (mkRange 5 6) red
           (mkRange 2 6) clean Hin (or_introl eq_refl)).
Defined.

Lemma top_fold_all_default : forall iv L acc,
  (forall r a, In (r, a) L -> a = style_default) ->
  unwrap_or_default acc = style_default ->
  unwrap_or_default (fold_left (top_step iv) L acc) = style_default.
Proof.
  intros iv; induction L as [|[r a] L IH]; intros acc Hd Hacc; [exact Hacc|]; simpl.
  apply IH; [intros r' a' Hin; exact (Hd r' a' (or_intror Hin))|].
  rewrite (Hd r a (or_introl eq_refl)).
  destruct (covers r iv); [|exact Hacc].
  destruct acc as [t|]; simpl in *; [|reflexivity].
  rewrite Hacc; reflexivity.
Qed.

Lemma merge_fold_styles : forall sig l acc r s,
  In (r, s) (fold_left (merge_step sig) l acc) ->
  (exists r', In (r', s) l) \/ (exists r', In (r', s) acc).
Proof.
  intros sig; induction l as [|[r0 s0] l IH]; intros acc r s Hin; simpl in Hin;
    [right; exists r; exact Hin|].
  destruct (IH _ _ _ Hin) as [(r' & Hr')|(r' & Hr')];
    [left; exists r'; right; exact Hr'|].
  unfold merge_step in Hr'; destruct acc as [|[lr ls] rest].
  - destruct Hr' as [Heq|[]]; injection Heq as <- <-; left; exists r0; left; reflexivity.
  - destruct (_ && _ && _).
    + destruct Hr' as [Heq|Hin']; [injection Heq as <- <-|].
      * right; exists lr; left; reflexivity.
      * right; exists r'; right; exact Hin'.
    + destruct Hr' as [Heq|Hin']; [injection Heq as <- <-|].
      * left; exists r0; left; reflexivity.
      * right; exists r'; exact Hin'.
Qed.

(** When the theme knows none of the matched labels, every span [styles]
    returns has the default style: a missing label is never an error, it
    just leaves its bytes unstyled. *)
Theorem styles_unknown_labels_default : forall R (theme : HighlightTheme) hs,
  (forall it, In it hs -> theme (item_name it) = None) ->
  Forall (fun p => snd p = style_default) (styles R theme hs).
Proof.
  intros R theme hs Hth; unfold styles.
  set (sts := map _ hs).
  assert (Hd : forall r a, In (r, a) sts -> a = style_default).
  { intros r a Hin; subst sts; apply in_map_iff in Hin as (it & Heq & Hit).
    injection Heq as _ <-; rewrite (Hth it Hit); reflexivity. }
  destruct sts as [|p0 sts0] eqn:Es; [repeat constructor|].
  rewrite <- Es in Hd |- *.
  assert (Hu : unique_styles R sts = merge_adjacent (significant_points sts)
                 (interval_styles (interval_points R sts) sts)) by (rewrite Es; reflexivity).
  rewrite Hu; apply Forall_forall; intros [r s] Hin; simpl.
  unfold merge_adjacent in Hin; apply in_rev in Hin.
  destruct (merge_fold_styles _ _ _ _ _ Hin) as [(r' & Hr')|(r' & [])].
  rewrite interval_styles_map in Hr' by apply interval_points_sorted.
  apply in_map_iff in Hr' as (iv & Heq & _); injection Heq as _ <-.
  apply top_fold_all_default; [exact Hd|reflexivity].
Qed.

Lemma styles_unknown_labels_default_witness :
  Forall (fun p => snd p = style_default)
    (styles (mkRange 0 10) (fun _ => None)
       [mkItem (mkRange 2 5) "keyword"%string; mkItem (mkRange 4 8) "string"%string]).
Proof.
  apply styles_unknown_labels_default; intros it [<-|[<-|[]]]; reflexivity.
Defined.

(** ** Further properties of the match collector *)

Lemma push_capture_appends : forall hl nr name,
  exists it, push_capture hl nr name = hl ++ [it] /\ end_ (item_range it) = end_ nr.
Proof.
  intros hl nr name; unfold push_capture.
  destruct (_ && _); [eexists; split; [reflexivity|reflexivity]|].
  destruct (range_eqb _ _); eexists; split; reflexivity.
Qed.

(** The capture loop of [match_styles] only appends: the items already
    collected are kept as they are, and exactly one item is added for each
    capture whose index names a capture of the query, ending where that
    capture's node ends; captures with an unknown index are skipped. *)
Theorem match_captures_append_only : forall q hl caps,
  exists ext,
    match_captures q hl caps = hl ++ ext /\
    List.length ext = List.length (filter (fun c =>
      match nth_error (capture_names q) (cap_index c) with Some _ => true | None => false end)
      caps) /\
    map (fun it => end_ (item_range it)) ext =
    map (fun c => end_ (cap_node c)) (filter (fun c =>
      match nth_error (capture_names q) (cap_index c) with Some _ => true | None => false end)
      caps).
Proof.
  intros q hl caps; revert hl; induction caps as [|c caps IH]; intros hl.
  - exists []; rewrite app_nil_r; auto.
  - unfold match_captures; simpl.
    destruct (nth_error (capture_names q) (cap_index c)) as [name|].
    + destruct (push_capture_appends hl (cap_node c) name) as (it & Hp & He).
      rewrite Hp; destruct (IH (hl ++ [it])) as (ext & Hm & Hl & Hmap).
      exists (it :: ext); unfold match_captures in Hm; rewrite Hm, <- app_assoc; simpl.
      rewrite Hl, Hmap, He; auto.
    + apply IH.
Qed.

(** An exact duplicate keeps the earlier label: a capture whose range is the
    range of the last collected item is appended with that item's label,
    whatever its own label is. *)
Theorem push_capture_duplicate_keeps_label : forall hl it name,
  last_opt hl = Some it ->
  push_capture hl (item_range it) name = hl ++ [mkItem (item_range it) (item_name it)].
Proof.
  intros hl it name Hlast; unfold push_capture; rewrite Hlast; simpl.
  destruct ((end_ (item_range it) <=? start (item_range it)) &&
            String.eqb (item_name it) name) eqn:E.
  - apply andb_prop in E as [E1 E2]; apply Nat.leb_le in E1; apply String.eqb_eq in E2.
    subst name; destruct (item_range it) as [a b]; simpl in *; reflexivity.
  - unfold range_eqb; rewrite !Nat.eqb_refl; reflexivity.
Qed.

Lemma push_capture_duplicate_keeps_label_witness :
  push_capture [mkItem (mkRange 213 220) "property"%string] (mkRange 213 220) "string"%string =
    [mkItem (mkRange 213 220) "property"%string; mkItem (mkRange 213 220) "property"%string].
Proof.
  exact (push_capture_duplicate_keeps_label [mkItem (mkRange 213 220) "property"%string]
           (mkItem (mkRange 213 220) "property"%string) "string"%string eq_refl).
Defined.

Lemma last_opt_in : forall {A} (l : list A) x, last_opt l = Some x -> In x l.
Proof.
  intros A; induction l as [|y l IH]; intros x H; [discriminate|].
  destruct l as [|z l]; [injection H as ->; left; reflexivity|].
  right; apply IH, H.
Qed.

Lemma map_get_in : forall {V} k (m : list (string * V)) v, map_get k m = Some v -> In (k, v) m.
Proof.
  intros V k; induction m as [|[k' v'] m IH]; intros v H; simpl in H; [discriminate|].
  destruct (String.eqb k k') eqn:E.
  - injection H as <-; apply String.eqb_eq in E; subst; left; reflexivity.
  - right; apply IH, H.
Qed.

Lemma match_captures_labels : forall (P : string -> Prop) q caps hl,
  (forall n, In n (capture_names q) -> P n) ->
  (forall it, In it hl -> P (item_name it)) ->
  forall it, In it (match_captures q hl caps) -> P (item_name it).
Proof.
  intros P q; induction caps as [|c caps IH]; intros hl Hq Hhl; [exact Hhl|].
  unfold match_captures; simpl.
  destruct (nth_error (capture_names q) (cap_index c)) as [name|] eqn:En; [|apply IH; auto].
  apply IH; [exact Hq|].
  assert (Hn : P name) by (apply Hq; eapply nth_error_In; exact En).
  intros it Hin; unfold push_capture in Hin.
  destruct (_ && _); [|destruct (range_eqb _ _)];
    (apply in_app_or in Hin as [Hin|[<-|[]]]; [exact (Hhl it Hin)|simpl]); try exact Hn.
  destruct (last_opt hl) as [x|] eqn:Hl; [|exact Hn].
  apply Hhl, last_opt_in, Hl.
Qed.

(** Every label [match_styles] returns is a capture name: of the engine's
    own query for ordinary captures, or of one of its injection queries for
    the spans of an injected region. *)
Theorem match_styles_labels :
  forall {Tree Language SubTree : Type} registry set_language_ok query_matches clip_offset
    (parse_fresh : Language -> string -> option SubTree) sub_matches
    (self : SyntaxHighlighter Tree) range q it,
  query self = Some q ->
  In it (match_styles registry set_language_ok query_matches clip_offset parse_fresh
           sub_matches self range) ->
  In (item_name it) (capture_names q) \/
  exists lang q', In (lang, q') (injection_queries self) /\ In (item_name it) (capture_names q').
Proof.
  intros Tree Language SubTree registry set_language_ok query_matches clip_offset parse_fresh
    sub_matches self range q it Hq Hin.
  unfold match_styles in Hin; rewrite Hq in Hin.
  destruct (tree self) as [t|]; [|destruct Hin].
  set (P := fun n => In n (capture_names q) \/
    exists lang q', In (lang, q') (injection_queries self) /\ In n (capture_names q')).
  change (P (item_name it)); revert it Hin.
  assert (Hfold : forall ms acc, (forall it, In it acc -> P (item_name it)) ->
    forall it, In it (fold_left (fun highlights query_match =>
      match injection_for_match self None q query_match with
      | (Some language_name, Some content_node, _) =>
          highlights ++ map (fun '(r, n) => mkItem r n)
            (handle_injection registry set_language_ok clip_offset parse_fresh sub_matches
               self language_name content_node)
      | _ => match_captures q highlights (captures query_match)
      end) ms acc) -> P (item_name it)).
  { induction ms as [|m ms IH]; intros acc Hacc; simpl; [exact Hacc|].
    apply IH.
    destruct (injection_for_match self None q m) as [[[lang|] [node|]] ic];
      try (apply match_captures_labels; [intros n Hn; left; exact Hn|exact Hacc]).
    intros it' Hin'; apply in_app_or in Hin' as [Hin'|Hin']; [exact (Hacc it' Hin')|].
    apply in_map_iff in Hin' as ([r n] & <- & Hrn); simpl.
    destruct (handle_injection_cases registry set_language_ok clip_offset parse_fresh
                sub_matches self lang node) as [Hnil|(q' & cfg & sub_tree & Hq' & _ & _ & Heq)];
      [rewrite Hnil in Hrn; destruct Hrn|].
    rewrite Heq in Hrn.
    destruct (injection_spans_sound _ _ _ _ _ _ Hrn) as (_ & _ & m' & c & _ & _ & _ & Hn).
    right; exists lang, q'; split; [apply map_get_in, Hq'|eapply nth_error_In; exact Hn]. }
  apply Hfold; intros ? [].
Qed.

Lemma match_styles_labels_witness :
  query keyword_highlighter = Some (mkQuery [] ["keyword"%string]) /\
  In (mkItem (mkRange 0 2) "keyword"%string)
     (match_styles css_registry (fun _ => true) keyword_matches clip_exact parse_unit
        css_matches keyword_highlighter (mkRange 0 2)) /\
  (In "keyword"%string ["keyword"%string] \/
   exists lang q', In (lang, q') (injection_queries keyword_highlighter) /\
                   In "keyword"%string (capture_names q')).
Proof.
  assert (Hin : In (mkItem (mkRange 0 2) "keyword"%string)
     (match_styles css_registry (fun _ => true) keyword_matches clip_exact parse_unit
        css_matches keyword_highlighter (mkRange 0 2))) by (vm_compute; left; reflexivity).
  split; [reflexivity|split; [exact Hin|]].
  exact (match_styles_labels css_registry (fun _ => true) keyword_matches clip_exact
           parse_unit css_matches keyword_highlighter (mkRange 0 2)
           (mkQuery [] ["keyword"%string]) _ eq_refl Hin).
Defined.

(** ** [build_combined_injections_query] *)

Lemma capture_fold_field : forall (f : CaptureIndices -> option nat) n,
  (forall ci i m, f (capture_step ci (i, m)) = if String.eqb m n then Some i else f ci) ->
  forall l k ci i,
  f (fold_left capture_step (combine (seq k (List.length l)) l) ci) = Some i <->
  (exists j, i = k + j /\ nth_error l j = Some n /\
             forall j', j < j' -> nth_error l j' <> Some n) \/
  (f ci = Some i /\ ~ In n l).
Proof.
  intros f n Hstep; induction l as [|x l IH]; intros k ci i; cbn [fold_left combine seq List.length].
  - split; [intros H; right; auto|].
    intros [(j & _ & Hj & _)|(H & _)]; [destruct j; discriminate|exact H].
  - rewrite IH, Hstep.
    destruct (String.eqb x n) eqn:Ex.
    + apply String.eqb_eq in Ex; subst x.
      split.
      * intros [(j & -> & Hj & Hmax)|(Hi & Hn)]; left.
        -- exists (S j); split; [lia|split; [exact Hj|]].
           intros [|j'] Hlt; [lia|apply Hmax; lia].
        -- injection Hi as <-; exists 0; split; [lia|split; [reflexivity|]].
           intros [|j'] Hlt; [lia|simpl; intros Hj'; apply Hn; eapply nth_error_In; exact Hj'].
      * intros [(j & -> & Hj & Hmax)|(_ & Hn)]; [|exfalso; apply Hn; left; reflexivity].
        destruct (existsb (String.eqb n) l) eqn:Hl.
        -- apply existsb_exists in Hl as (y & Hy & Hyn); apply String.eqb_eq in Hyn; subst y.
           apply In_nth_error in Hy as (j' & Hj').
           destruct j as [|j].
           ++ exfalso; apply (Hmax (S j')); [lia|exact Hj'].
           ++ left; exists j; split; [lia|split; [exact Hj|]].
              intros j'' Hlt; apply (Hmax (S j'')); lia.
        -- right; split.
           ++ destruct j as [|j]; [f_equal; lia|].
              exfalso; simpl in Hj; assert (Hin : In n l) by (eapply nth_error_In; exact Hj).
              apply (proj1 (existsb_exists (String.eqb n) l)) in Hl as []
                || (rewrite <- Bool.not_true_iff_false in Hl; apply Hl, existsb_exists;
                    exists n; split; [exact Hin|apply String.eqb_refl]).
           ++ intros Hin; rewrite <- Bool.not_true_iff_false in Hl; apply Hl, existsb_exists;
                exists n; split; [exact Hin|apply String.eqb_refl].
    + apply String.eqb_neq in Ex.
      split.
      * intros [(j & -> & Hj & Hmax)|(Hi & Hn)].
        -- left; exists (S j); split; [lia|split; [exact Hj|]].
           intros [|j'] Hlt; [lia|apply Hmax; lia].
        -- right; split; [exact Hi|intros [Hx|Hx]; [exact (Ex Hx)|exact (Hn Hx)]].
      * intros [(j & -> & Hj & Hmax)|(Hi & Hn)].
        -- destruct j as [|j]; [injection Hj as Hj; exfalso; exact (Ex Hj)|].
           left; exists j; split; [lia|split; [exact Hj|]].
           intros j' Hlt; apply (Hmax (S j')); lia.
        -- right; split; [exact Hi|intros Hx; apply Hn; right; exact Hx].
Qed.

Ltac capture_step_field :=
  intros ci j m; unfold capture_step;
  repeat match goal with
  | |- context [String.eqb m ?s] =>
      let E := fresh "E" in
      destruct (String.eqb m s) eqn:E; [apply String.eqb_eq in E; subst m; reflexivity|]
  end; reflexivity.

(** The special capture indices [build_combined_injections_query] records:
    the index stored for each special name is the LAST position of that name
    among the query's capture names, and nothing is stored when the name is
    not a capture name. *)
Theorem capture_indices_last : forall q i,
  let names := capture_names q in
  let last_at n := exists j, i = j /\ nth_error names j = Some n /\
                     forall j', j < j' -> nth_error names j' <> Some n in
  (ci_content (capture_indices q) = Some i <-> last_at "injection.content"%string) /\
  (ci_language (capture_indices q) = Some i <-> last_at "injection.language"%string) /\
  (ci_def (capture_indices q) = Some i <-> last_at "local.definition"%string) /\
  (ci_def_value (capture_indices q) = Some i <-> last_at "local.definition-value"%string) /\
  (ci_ref (capture_indices q) = Some i <-> last_at "local.reference"%string) /\
  (ci_scope (capture_indices q) = Some i <-> last_at "local.scope"%string).
Proof.
  intros q i names last_at; unfold capture_indices, last_at, names.
  assert (Gen : forall (f : CaptureIndices -> option nat) n,
    (forall ci i m, f (capture_step ci (i, m)) = if String.eqb m n then Some i else f ci) ->
    f (mkIndices None None None None None None) = None ->
    f (fold_left capture_step (combine (seq 0 (List.length (capture_names q)))
         (capture_names q)) (mkIndices None None None None None None)) = Some i <->
    exists j, i = j /\ nth_error (capture_names q) j = Some n /\
              forall j', j < j' -> nth_error (capture_names q) j' <> Some n).
  { intros f n Hs H0; rewrite (capture_fold_field f n Hs); rewrite H0; split.
    - intros [(j & -> & H)|(H & _)]; [exists j; auto|discriminate].
    - intros (j & -> & H); left; exists j; auto. }
  repeat split; (apply Gen; [capture_step_field|reflexivity]).
Qed.

Lemma string_length_append : forall s1 s2,
  String.length (s1 ++ s2)%string = String.length s1 + String.length s2.
Proof. induction s1 as [|c s1 IH]; intros s2; simpl; [reflexivity|rewrite IH; reflexivity]. Qed.

Lemma pattern_indices_count : forall ps lqo hqo acc,
  lqo <= hqo ->
  fold_left (fun '(l, hl) p =>
      let pattern_offset := pattern_start_byte p in
      if pattern_offset <? hqo then
        (if pattern_offset <? lqo then S l else l, S hl)
      else (l, hl)) ps acc =
  (fst acc + List.length (filter (fun p => pattern_start_byte p <? lqo) ps),
   snd acc + List.length (filter (fun p => pattern_start_byte p <? hqo) ps)).
Proof.
  induction ps as [|p ps IH]; intros lqo hqo [l hl] Hle; simpl; [f_equal; lia|].
  rewrite IH by exact Hle; simpl.
  destruct (pattern_start_byte p <? hqo) eqn:Eh, (pattern_start_byte p <? lqo) eqn:El;
    simpl; try (f_equal; lia).
  apply Nat.ltb_lt in El; apply Nat.ltb_ge in Eh; lia.
Qed.

(** An engine [build_combined_injections_query] returns is built from the
    registered configuration of the language: it carries the compiled
    concatenated query and the configuration's name, starts with an empty
    text ([is_empty]), no tree and no parse run; [locals_pattern_index]
    counts the patterns starting inside the injections source and
    [highlights_pattern_index] those starting before the highlights source,
    so [locals_pattern_index <= highlights_pattern_index <= pattern_count];
    and there is one [non_local_variable_patterns] flag per pattern. *)
Theorem build_ok_engine :
  forall {Tree Language : Type} registry set_language_ok query_new lang
    (h : SyntaxHighlighter Tree) logs,
  build_combined_injections_query (Language := Language) registry set_language_ok query_new lang
    = (Ok h, logs) ->
  exists config q,
    registry lang = Some config /\ set_language_ok (config_language config) = true /\
    query_new (config_language config)
      (injections config ++ locals config ++ highlights config)%string = Some q /\
    query h = Some q /\ language h = config_name config /\
    is_empty h = true /\ tree h = None /\ parser h = 0 /\
    locals_pattern_index h =
      List.length (filter (fun p => pattern_start_byte p <? String.length (injections config))
                     (patterns q)) /\
    highlights_pattern_index h =
      List.length (filter (fun p => pattern_start_byte p <?
                             String.length (injections config ++ locals config)%string)
                     (patterns q)) /\
    locals_pattern_index h <= highlights_pattern_index h <= List.length (patterns q) /\
    List.length (non_local_variable_patterns h) = List.length (patterns q).
Proof.
  intros Tree Language registry set_language_ok query_new lang h logs Hb.
  unfold build_combined_injections_query in Hb.
  destruct (registry lang) as [config|] eqn:Hreg; [|discriminate].
  destruct (set_language_ok (config_language config)) eqn:Hset; [|discriminate]; simpl in Hb.
  destruct (query_new _ _) as [q|] eqn:Hq; [|discriminate].
  assert (Hle : String.length (injections config) <=
                String.length (injections config ++ locals config)%string)
    by (rewrite string_length_append; lia).
  unfold pattern_indices in Hb; rewrite (pattern_indices_count _ _ _ _ Hle) in Hb; simpl in Hb.
  destruct (build_injection_queries registry query_new config) as [iq logs'].
  injection Hb as <- _.
  exists config, q; simpl.
  do 10 (split; [first [reflexivity|assumption]|]).
  split; [|unfold non_local_patterns; apply length_map].
  split; [|apply filter_length_le].
  induction (patterns q) as [|p ps IH]; simpl; [lia|].
  destruct (pattern_start_byte p <? String.length (injections config)) eqn:El,
    (pattern_start_byte p <? String.length (injections config ++ locals config)) eqn:Eh;
    simpl; try lia.
  apply Nat.ltb_lt in El; apply Nat.ltb_ge in Eh; lia.
Qed.

(** A ["rust"] configuration with sources ["ab"], ["c"] and ["de"], compiled
    to patterns starting at bytes 0, 2 and 3: one pattern counts as an
    injection pattern, two start before the highlights. *)
Lemma build_ok_engine_witness :
  exists (h : SyntaxHighlighter unit) logs,
    build_combined_injections_query rust_registry (fun _ => true) rust_query_new "rust"%string
      = (Ok h, logs) /\
    locals_pattern_index h = 1 /\ highlights_pattern_index h = 2 /\ is_empty h = true.
Proof.
  eexists; eexists; split; [reflexivity|].
  destruct (build_ok_engine (Tree := unit) rust_registry (fun _ => true) rust_query_new "rust"%string _ _
              eq_refl) as (config & q & Hreg & _ & Hq & _ & _ & He & _ & _ & Hl & Hh & _).
  injection Hreg as <-; injection Hq as <-.
  rewrite Hl, Hh, He; split; [reflexivity|split; reflexivity].
Defined.

Lemma map_get_filter_other : forall {V} k k' (m : list (string * V)),
  k <> k' ->
  map_get k (filter (fun '(k'', _) => negb (String.eqb k' k'')) m) = map_get k m.
Proof.
  intros V k k'; induction m as [|[k'' v] m IH]; intros Hne; simpl; [reflexivity|].
  destruct (String.eqb k' k'') eqn:E; simpl.
  - apply String.eqb_eq in E; subst k''.
    rewrite (proj2 (String.eqb_neq k k') Hne); apply IH, Hne.
  - destruct (String.eqb k k''); [reflexivity|apply IH, Hne].
Qed.

(** [HashMap::insert] then lookup. *)
Lemma map_get_insert : forall {V} k k' v (m : list (string * V)),
  map_get k (map_insert k' v m) = if String.eqb k k' then Some v else map_get k m.
Proof.
  intros V k k' v m; unfold map_insert; simpl.
  destruct (String.eqb k k') eqn:E; [reflexivity|].
  apply map_get_filter_other, String.eqb_neq, E.
Qed.

(** The injection queries [build_combined_injections_query] builds: a query
    found under a name is the compiled highlights query of a registered
    injection language with that configuration name; every registered
    injection language whose highlights compile has an entry under its
    name; every log line is an [Error], one per registered injection language
    whose highlights fail to compile, and unregistered names are skipped
    silently. *)
Theorem injection_queries_lookup :
  forall {Language : Type} registry query_new (config : LanguageConfig Language),
  let '(iq, logs) := build_injection_queries registry query_new config in
  (forall n q, map_get n iq = Some q ->
     exists inj cfg, In inj (injection_languages config) /\ registry inj = Some cfg /\
       config_name cfg = n /\ query_new (config_language cfg) (highlights cfg) = Some q) /\
  (forall inj cfg q, In inj (injection_languages config) -> registry inj = Some cfg ->
     query_new (config_language cfg) (highlights cfg) = Some q ->
     exists q', map_get (config_name cfg) iq = Some q') /\
  (forall l, In l logs -> exists msg, l = Error msg) /\
  List.length logs = List.length (filter (fun inj =>
      match registry inj with
      | Some cfg => match query_new (config_language cfg) (highlights cfg) with
                    | Some _ => false | None => true end
      | None => false
      end) (injection_languages config)).
Proof.
  intros Language registry query_new config; unfold build_injection_queries.
  set (F := fun '(m, logs) inj_language => _).
  assert (G : forall langs m logs,
    let '(iq, logs') := fold_left F langs (m, logs) in
    (forall n q, map_get n iq = Some q -> map_get n m = Some q \/
       exists inj cfg, In inj langs /\ registry inj = Some cfg /\
         config_name cfg = n /\ query_new (config_language cfg) (highlights cfg) = Some q) /\
    (forall n, (exists q, map_get n m = Some q) -> exists q, map_get n iq = Some q) /\
    (forall inj cfg q, In inj langs -> registry inj = Some cfg ->
       query_new (config_language cfg) (highlights cfg) = Some q ->
       exists q', map_get (config_name cfg) iq = Some q') /\
    (exists new_logs, logs' = logs ++ new_logs /\ (forall l, In l new_logs -> exists msg, l = Error msg) /\
       List.length new_logs = List.length (filter (fun inj =>
         match registry inj with
         | Some cfg => match query_new (config_language cfg) (highlights cfg) with
                       | Some _ => false | None => true end
         | None => false
         end) langs))).
  { induction langs as [|inj langs IH]; intros m logs; cbn [fold_left].
    - split; [auto|split; [auto|split; [intros ? ? ? []|]]].
      exists []; rewrite app_nil_r; split; [reflexivity|split; [intros ? []|reflexivity]].
    - assert (Hs : F (m, logs) inj =
        match registry inj with
        | Some inj_config =>
            match query_new (config_language inj_config) (highlights inj_config) with
            | Some q => (map_insert (config_name inj_config) q m, logs)
            | None => (m, logs ++ [Error ("failed to build injection query for "
                                           ++ config_name inj_config)])
            end
        | None => (m, logs)
        end) by reflexivity.
      rewrite Hs.
      destruct (registry inj) as [cfg|] eqn:Hreg.
      + destruct (query_new (config_language cfg) (highlights cfg)) as [q|] eqn:Hq.
        * specialize (IH (map_insert (config_name cfg) q m) logs).
          destruct (fold_left F langs _) as [iq logs'].
          destruct IH as (H1 & H2 & H3 & H4); split; [|split; [|split]].
          -- intros n q' Hn; destruct (H1 n q' Hn) as [Hm|(i & c & Hi & Hc)].
             ++ rewrite map_get_insert in Hm; destruct (String.eqb n (config_name cfg)) eqn:E.
                ** injection Hm as <-; apply String.eqb_eq in E; subst n.
                   right; exists inj, cfg; split; [left; reflexivity|auto].
                ** left; exact Hm.
             ++ right; exists i, c; split; [right; exact Hi|exact Hc].
          -- intros n (q' & Hq'); apply H2.
             rewrite map_get_insert; destruct (String.eqb n (config_name cfg)); eauto.
          -- intros i c q' [<-|Hi] Hc Hq'; [|exact (H3 i c q' Hi Hc Hq')].
             rewrite Hreg in Hc; injection Hc as <-; apply H2.
             rewrite map_get_insert, String.eqb_refl; eauto.
          -- cbn [filter]; rewrite Hreg, Hq; exact H4.
        * specialize (IH m (logs ++ [Error ("failed to build injection query for "
                                             ++ config_name cfg)])).
          destruct (fold_left F langs _) as [iq logs'].
          destruct IH as (H1 & H2 & H3 & (nl & Hl & He & Hlen)); split; [|split; [|split]].
          -- intros n q' Hn; destruct (H1 n q' Hn) as [Hm|(i & c & Hi & Hc)]; [left; exact Hm|].
             right; exists i, c; split; [right; exact Hi|exact Hc].
          -- exact H2.
          -- intros i c q' [<-|Hi] Hc Hq'; [|exact (H3 i c q' Hi Hc Hq')].
             rewrite Hreg in Hc; injection Hc as <-; rewrite Hq in Hq'; discriminate.
          -- exists (Error ("failed to build injection query for " ++ config_name cfg) :: nl).
             rewrite Hl, <- app_assoc; split; [reflexivity|split].
             ++ intros l [<-|Hin]; [eexists; reflexivity|exact (He l Hin)].
             ++ cbn [filter]; rewrite Hreg, Hq; simpl; rewrite Hlen; reflexivity.
      + specialize (IH m logs).
        destruct (fold_left F langs _) as [iq logs'].
        destruct IH as (H1 & H2 & H3 & H4); split; [|split; [|split]].
        -- intros n q' Hn; destruct (H1 n q' Hn) as [Hm|(i & c & Hi & Hc)]; [left; exact Hm|].
           right; exists i, c; split; [right; exact Hi|exact Hc].
        -- exact H2.
        -- intros i c q' [<-|Hi] Hc Hq'; [congruence|exact (H3 i c q' Hi Hc Hq')].
        -- cbn [filter]; rewrite Hreg; exact H4. }
  specialize (G (injection_languages config) [] []).
  destruct (fold_left F (injection_languages config) ([], [])) as [iq logs].
  destruct G as (H1 & _ & H3 & (nl & Hl & He & Hlen)); simpl in Hl; subst nl.
  split; [|split; [exact H3|split; [exact He|exact Hlen]]].
  intros n q Hn; destruct (H1 n q Hn) as [Hm|H]; [discriminate|exact H].
Qed.

(** The rust configuration injects ["css"], whose highlights fail to
    compile, and ["js"], which is not registered: no query, one error line. *)
Lemma injection_queries_lookup_witness :
  build_injection_queries rust_registry rust_query_new
    (mkConfig "rust"%string tt "ab"%string "c"%string "de"%string ["css"%string; "js"%string])
    = ([], [Error "failed to build injection query for css"%string]) /\
  List.length (snd (build_injection_queries rust_registry rust_query_new
    (mkConfig "rust"%string tt "ab"%string "c"%string "de"%string
       ["css"%string; "js"%string]))) = 1.
Proof.
  split; [reflexivity|].
  pose proof (injection_queries_lookup rust_registry rust_query_new
    (mkConfig "rust"%string tt "ab"%string "c"%string "de"%string
       ["css"%string; "js"%string])) as H.
  destruct (build_injection_queries _ _ _) as [iq logs]; simpl.
  destruct H as (_ & _ & _ & Hlen); rewrite Hlen; reflexivity.
Defined.

(** ** Further properties of [update] *)

(** [update] panics exactly when the text changes and the parser cannot
    parse the empty text (the eager [parse("", None).unwrap()]), whether or
    not the engine already has a tree. *)
Theorem update_panics_iff :
  forall {Tree : Type} tree_edit parse (self : SyntaxHighlighter Tree) edit txt,
  update tree_edit parse self edit txt = Panic <->
  text self <> txt /\ parse EmptyString None = None.
Proof.
  intros Tree tree_edit parse self edit txt; unfold update.
  destruct (String.eqb (text self) txt) eqn:E.
  - apply String.eqb_eq in E; split; [discriminate|intros [H _]; contradiction].
  - apply String.eqb_neq in E.
    destruct (parse EmptyString None); [|split; auto].
    split; [destruct (parse txt _); discriminate|intros [_ H]; discriminate].
Qed.

Lemma update_panics_iff_witness :
  update (fun _ t => t) (fun _ _ => None) (sample_highlighter "a"%string (Some tt) [])
    None "b"%string = Panic.
Proof.
  apply (proj2 (update_panics_iff (fun _ t => t) (fun _ _ => None)
                  (sample_highlighter "a"%string (Some tt) []) None "b"%string)).
  split; [discriminate|reflexivity].
Defined.

(** What [update] may change: only the text, the parse count and the tree.
    Either nothing changes, or exactly two parses are run and then either
    the new text and a new tree are stored, or the old text is kept with no
    tree. *)
Theorem update_frame :
  forall {Tree : Type} tree_edit parse (self : SyntaxHighlighter Tree) edit txt h,
  update tree_edit parse self edit txt = Done h ->
  h = with_state self (text h) (parser h) (tree h) /\
  (h = self \/
   parser h = parser self + 2 /\
   ((text h = txt /\ tree h <> None) \/ (text h = text self /\ tree h = None))).
Proof.
  intros Tree tree_edit parse self edit txt h Hup.
  unfold update in Hup.
  destruct (String.eqb (text self) txt) eqn:E.
  - injection Hup as <-; split; [|left; reflexivity].
    destruct self; reflexivity.
  - destruct (parse EmptyString None); [|discriminate].
    destruct (parse txt _) as [new_tree|]; injection Hup as <-; simpl.
    + split; [reflexivity|right; split; [lia|left; split; [reflexivity|discriminate]]].
    + split; [reflexivity|right; split; [lia|right; split; reflexivity]].
Qed.

Lemma update_frame_witness :
  update (fun _ t => t) (fun _ _ => Some tt) (sample_highlighter "a"%string (Some tt) [])
    None "b"%string = Done (with_state (sample_highlighter "a"%string (Some tt) [])
                              "b"%string 2 (Some tt)) /\
  parser (with_state (@sample_highlighter unit "a"%string (Some tt) []) "b"%string 2 (Some tt))
    = 0 + 2.
Proof.
  split; [reflexivity|].
  destruct (update_frame (fun _ t => t) (fun _ _ => Some tt)
              (sample_highlighter "a"%string (Some tt) []) None "b"%string _ eq_refl)
    as (_ & [Heq|(Hp & _)]); [discriminate|exact Hp].
Defined.

(** ** Further properties of the injection code *)

Lemma last_opt_cons : forall {A} (x : A) l,
  last_opt (x :: l) = match last_opt l with None => Some x | s => s end.
Proof.
  intros A x [|y l]; [reflexivity|].
  change (last_opt (x :: y :: l)) with (last_opt (y :: l)).
  assert (H : last_opt (y :: l) <> None).
  { revert y; induction l as [|z l IH]; intros y; [discriminate|exact (IH z)]. }
  destruct (last_opt (y :: l)); [reflexivity|contradiction].
Qed.

Lemma content_fold_last : forall (P : QueryCapture -> bool) caps acc,
  fold_left (fun acc (capture : QueryCapture) =>
      if P capture then Some (cap_node capture) else acc) caps acc =
  match last_opt (filter P caps) with Some c => Some (cap_node c) | None => acc end.
Proof.
  intros P; induction caps as [|c caps IH]; intros acc; simpl; [reflexivity|].
  rewrite IH; destruct (P c); [rewrite last_opt_cons|];
    destruct (last_opt (filter P caps)); reflexivity.
Qed.

Lemma settings_fold_first : forall {Tree} (self : SyntaxHighlighter Tree) parent_name settings
    (ln : option string) ic,
  fold_left (fun '(language_name, include_children) '(key, value) =>
      if String.eqb key "injection.language"%string then
        (match language_name with None => value | Some _ => language_name end,
         include_children)
      else if String.eqb key "injection.self"%string then
        (match language_name with None => Some (language self) | Some _ => language_name end,
         include_children)
      else if String.eqb key "injection.parent"%string then
        (match language_name with None => parent_name | Some _ => language_name end,
         include_children)
      else if String.eqb key "injection.include-children"%string then
        (language_name, true)
      else (language_name, include_children)) settings (ln, ic) =
  (match ln with
   | Some _ => ln
   | None => fold_right (fun s acc =>
       match setting_language self parent_name s with Some n => Some n | None => acc end)
       None settings
   end,
   ic || existsb (fun '(key, _) => String.eqb key "injection.include-children"%string) settings).
Proof.
  intros Tree self parent_name; induction settings as [|[key value] settings IH]; intros ln ic;
    simpl; [destruct ln; rewrite orb_false_r; reflexivity|].
  unfold setting_language.
  destruct (String.eqb key "injection.language"%string) eqn:E1;
    [apply String.eqb_eq in E1; subst key; simpl; rewrite IH;
     destruct ln, value; reflexivity|].
  destruct (String.eqb key "injection.self"%string) eqn:E2;
    [apply String.eqb_eq in E2; subst key; simpl; rewrite IH; destruct ln; reflexivity|].
  destruct (String.eqb key "injection.parent"%string) eqn:E3;
    [apply String.eqb_eq in E3; subst key; simpl; rewrite IH;
     destruct ln, parent_name; reflexivity|].
  destruct (String.eqb key "injection.include-children"%string) eqn:E4; rewrite IH;
    [rewrite orb_true_r; simpl; destruct ln; reflexivity|destruct ln; reflexivity].
Qed.

(** How [injection_for_match] reads a match: the language is given by the
    FIRST property setting of the pattern that names one ([injection.language]
    with a value, [injection.self], or [injection.parent] with a parent), the
    content node is the node of the LAST capture with the content capture
    index, and [include_children] is set when any setting has the key
    [injection.include-children]. *)
Theorem injection_for_match_resolution :
  forall {Tree} (self : SyntaxHighlighter Tree) parent_name q query_match,
  let settings := match nth_error (patterns q) (pattern_index query_match) with
                  | Some p => property_settings p | None => [] end in
  injection_for_match self parent_name q query_match =
    (fold_right (fun s acc =>
       match setting_language self parent_name s with Some n => Some n | None => acc end)
       None settings,
     option_map cap_node (last_opt (filter (fun c =>
       opt_nat_eqb (Some (cap_index c)) (injection_content_capture_index self))
       (captures query_match))),
     existsb (fun '(key, _) => String.eqb key "injection.include-children"%string) settings).
Proof.
  intros Tree self parent_name q query_match settings; unfold injection_for_match.
  rewrite content_fold_last; fold settings.
  rewrite settings_fold_first; simpl.
  destruct (last_opt _); reflexivity.
Qed.

Lemma substring_zero : forall n s, substring n 0 s = EmptyString.
Proof. induction n as [|n IH]; intros [|c s]; simpl; auto. Qed.

Lemma substring_past_end : forall n m s, String.length s <= n -> substring n m s = EmptyString.
Proof.
  induction n as [|n IH]; intros m [|c s] H; simpl in H.
  - destruct m; reflexivity.
  - lia.
  - reflexivity.
  - apply IH; lia.
Qed.

(** [handle_injection] emits nothing when the language has no injection
    query, when the clipped content range is empty or starts at or past the
    end of the text, when the language is not registered or its grammar is
    refused, or when the fresh parse of the content fails. *)
Theorem handle_injection_empty :
  forall {Tree Language SubTree : Type} registry set_language_ok clip_offset
    (parse_fresh : Language -> string -> option SubTree) sub_matches
    (self : SyntaxHighlighter Tree) lang node,
  let so := clip_offset (text self) (start node) Left in
  let eo := clip_offset (text self) (end_ node) Right in
  map_get lang (injection_queries self) = None \/ eo <= so \/ String.length (text self) <= so \/
  registry lang = None \/
  (exists cfg, registry lang = Some cfg /\
     (set_language_ok (config_language cfg) = false \/
      parse_fresh (config_language cfg) (rope_slice (text self) so eo) = None)) ->
  handle_injection registry set_language_ok clip_offset parse_fresh sub_matches
    self lang node = [].
Proof.
  intros Tree Language SubTree registry set_language_ok clip_offset parse_fresh sub_matches
    self lang node so eo H; unfold handle_injection; fold so eo.
  destruct (map_get lang (injection_queries self)) as [q|] eqn:Hq; [|reflexivity].
  assert (Hc : (eo <= so \/ String.length (text self) <= so) ->
               (String.length (rope_slice (text self) so eo) =? 0) = true).
  { intros [Hle|Hle]; unfold rope_slice;
      [replace (eo - so) with 0 by lia; rewrite substring_zero|rewrite substring_past_end by exact Hle];
      reflexivity. }
  destruct H as [H|[H|[H|[H|(cfg & Hcfg & H)]]]]; [discriminate| | | |].
  - rewrite Hc by (left; exact H); reflexivity.
  - rewrite Hc by (right; exact H); reflexivity.
  - destruct (String.length _ =? 0); [reflexivity|rewrite H; reflexivity].
  - destruct (String.length _ =? 0); [reflexivity|rewrite Hcfg].
    destruct H as [H|H]; rewrite ?H; [reflexivity|].
    destruct (negb _); reflexivity.
Qed.

Lemma handle_injection_empty_witness :
  handle_injection css_registry (fun _ => true) clip_exact parse_unit css_matches
    (@sample_highlighter unit "a{b}"%string (Some tt) [("css"%string, css_query)])
    "css"%string (mkRange 3 3) = [].
Proof.
  apply (handle_injection_empty css_registry (fun _ => true) clip_exact parse_unit css_matches
           (sample_highlighter "a{b}"%string (Some tt) [("css"%string, css_query)])
           "css"%string (mkRange 3 3)).
  right; left; unfold clip_exact; simpl; lia.
Defined.

(** ** The [sum_tree] summary of highlight items *)

(** [add_summary] is associative: the later summary supplies [start] and
    [end], the minimum and maximum are associative, and the wrapping count
    addition is associative modulo [2^64]. *)
Theorem add_summary_assoc : forall a b c : HighlightSummary,
  add_summary (add_summary a b) c = add_summary a (add_summary b c).
Proof.
  intros [ca sa ea ma xa] [cb sb eb mb xb] [cc sc ec mc xc]; unfold add_summary; simpl.
  rewrite N.Div0.add_mod_idemp_l, N.Div0.add_mod_idemp_r, N.add_assoc, N.min_assoc, N.max_assoc.
  reflexivity.
Qed.

(** The zero summary is a left unit of [add_summary] for every summary whose
    count and [min_start] fit in a [usize]. *)
Theorem summary_zero_left_unit : forall x : HighlightSummary,
  (count x < 2 ^ 64)%N -> (min_start x <= usize_max)%N ->
  add_summary summary_zero x = x.
Proof.
  intros [c s e m mx] Hc Hm; unfold add_summary, summary_zero; simpl in *.
  rewrite N.mod_small by exact Hc.
  rewrite N.min_r by exact Hm.
  rewrite N.max_r by apply N.le_0_l.
  reflexivity.
Qed.

Lemma summary_zero_left_unit_witness :
  add_summary summary_zero (item_summary (mkItem (mkRange 3 7) "keyword"%string)) =
  item_summary (mkItem (mkRange 3 7) "keyword"%string).
Proof.
  apply summary_zero_left_unit; unfold usize_max; simpl; lia.
Defined.

Lemma summary_fold_count : forall l s, (count s < 2 ^ 64)%N ->
  count (fold_left (fun s item => add_summary s (item_summary item)) l s) =
  ((count s + N.of_nat (List.length l)) mod 2 ^ 64)%N.
Proof.
  induction l as [|a l IH]; intros s Hs; cbn [fold_left List.length].
  - rewrite N.add_0_r, N.mod_small by exact Hs; reflexivity.
  - rewrite IH by (apply N.mod_lt; discriminate).
    unfold add_summary at 1; cbn [count item_summary].
    rewrite N.Div0.add_mod_idemp_l, Nat2N.inj_succ.
    f_equal; lia.
Qed.

Lemma summary_fold_min : forall l s,
  let r := fold_left (fun s item => add_summary s (item_summary item)) l s in
  (min_start r <= min_start s)%N /\
  (forall it, In it l -> (min_start r <= N.of_nat (start (item_range it)))%N) /\
  (min_start r = min_start s \/
   exists it, In it l /\ min_start r = N.of_nat (start (item_range it))).
Proof.
  induction l as [|a l IH]; intros s r; subst r; simpl.
  - split; [lia|split; [intros _ []|left; reflexivity]].
  - destruct (IH (add_summary s (item_summary a))) as (H1 & H2 & H3); simpl in *.
    split; [|split].
    + pose proof (N.le_min_l (min_start s) (N.of_nat (start (item_range a)))); lia.
    + intros it [<-|Hin]; [|exact (H2 it Hin)].
      pose proof (N.le_min_r (min_start s) (N.of_nat (start (item_range a)))); lia.
    + destruct H3 as [H3|(it & Hin & H3)]; [|right; exists it; split; [right; exact Hin|exact H3]].
      destruct (N.min_spec (min_start s) (N.of_nat (start (item_range a)))) as [(_ & Hm)|(_ & Hm)];
        rewrite Hm in H3; [left; exact H3|right; exists a; split; [left; reflexivity|exact H3]].
Qed.

Lemma summary_fold_max : forall l s,
  let r := fold_left (fun s item => add_summary s (item_summary item)) l s in
  (max_end s <= max_end r)%N /\
  (forall it, In it l -> (N.of_nat (end_ (item_range it)) <= max_end r)%N) /\
  (max_end r = max_end s \/
   exists it, In it l /\ max_end r = N.of_nat (end_ (item_range it))).
Proof.
  induction l as [|a l IH]; intros s r; subst r; simpl.
  - split; [lia|split; [intros _ []|left; reflexivity]].
  - destruct (IH (add_summary s (item_summary a))) as (H1 & H2 & H3); simpl in *.
    split; [|split].
    + pose proof (N.le_max_l (max_end s) (N.of_nat (end_ (item_range a)))); lia.
    + intros it [<-|Hin]; [|exact (H2 it Hin)].
      pose proof (N.le_max_r (max_end s) (N.of_nat (end_ (item_range a)))); lia.
    + destruct H3 as [H3|(it & Hin & H3)]; [|right; exists it; split; [right; exact Hin|exact H3]].
      destruct (N.max_spec (max_end s) (N.of_nat (end_ (item_range a)))) as [(_ & Hm)|(_ & Hm)];
        rewrite Hm in H3; [right; exists a; split; [left; reflexivity|exact H3]|left; exact H3].
Qed.

(** The summary of a list of items: the count is the number of items
    (wrapping at [2^64]); [min_start] and [max_end] are the least start and
    greatest end, attained by some item when the list is non-empty (given
    starts that fit in a [usize]); [start] and [end] are those of the last
    item. *)
Theorem summarize_spec : forall items : list HighlightItem,
  (forall it, In it items -> (N.of_nat (start (item_range it)) <= usize_max)%N) ->
  let s := summarize items in
  count s = (N.of_nat (List.length items) mod 2 ^ 64)%N /\
  (forall it, In it items ->
     (min_start s <= N.of_nat (start (item_range it)))%N /\
     (N.of_nat (end_ (item_range it)) <= max_end s)%N) /\
  (items <> [] ->
     (exists it, In it items /\ min_start s = N.of_nat (start (item_range it))) /\
     (exists it, In it items /\ max_end s = N.of_nat (end_ (item_range it)))) /\
  (forall its last, items = its ++ [last] ->
     summary_start s = N.of_nat (start (item_range last)) /\
     summary_end s = N.of_nat (end_ (item_range last))).
Proof.
  intros items Hb s; subst s; unfold summarize.
  destruct (summary_fold_min items summary_zero) as (Hm1 & Hm2 & Hm3).
  destruct (summary_fold_max items summary_zero) as (Hx1 & Hx2 & Hx3).
  cbv zeta in *; simpl in Hm1, Hm3, Hx1, Hx3.
  split; [|split; [|split]].
  - rewrite summary_fold_count by (simpl; lia); reflexivity.
  - intros it Hin; split; [exact (Hm2 it Hin)|exact (Hx2 it Hin)].
  - intros Hne; destruct items as [|it0 rest]; [contradiction|].
    split.
    + destruct Hm3 as [Hm3|Hm3]; [|exact Hm3].
      exists it0; split; [left; reflexivity|].
      specialize (Hm2 it0 (or_introl eq_refl)); specialize (Hb it0 (or_introl eq_refl)).
      unfold usize_max in *; lia.
    + destruct Hx3 as [Hx3|Hx3]; [|exact Hx3].
      exists it0; split; [left; reflexivity|].
      specialize (Hx2 it0 (or_introl eq_refl)); lia.
  - intros its last ->; rewrite fold_left_app; simpl; split; reflexivity.
Qed.

Lemma summarize_spec_witness :
  summary_start (summarize [mkItem (mkRange 4 9) "string"%string;
                            mkItem (mkRange 1 3) "keyword"%string]) = 1%N /\
  min_start (summarize [mkItem (mkRange 4 9) "string"%string;
                        mkItem (mkRange 1 3) "keyword"%string]) = 1%N /\
  max_end (summarize [mkItem (mkRange 4 9) "string"%string;
                      mkItem (mkRange 1 3) "keyword"%string]) = 9%N.
Proof.
  destruct (summarize_spec [mkItem (mkRange 4 9) "string"%string;
                            mkItem (mkRange 1 3) "keyword"%string]) as (_ & _ & _ & Hl).
  - intros it [<-|[<-|[]]]; unfold usize_max; simpl; lia.
  - split; [exact (proj1 (Hl [mkItem (mkRange 4 9) "string"%string] _ eq_refl))|].
    split; reflexivity.
Defined.
